(** * Zlang: tokenizer, operator-precedence parser and evaluator

    A shallow embedding of [interpreter.py].

    - Python [int] is [Z]; [//] is floor division, which is [Z.div]
      away from a zero divisor.
    - Source text is a [list ascii], each character standing for its
      code point, from 0 to 255; [str.isalpha] and [str.isalnum] are
      Python's on these code points (the letters and numeric characters
      of Latin-1 included).
    - An environment ([dict[str, int]]) is a [gmap string Z].  Dicts are
      mutable objects handed around by reference, so the evaluator runs
      over a store of dicts and receives the address of its environment.
    - A raised exception is a [Raise e] result; exceptions propagate.
      The interpreter's recursion limit is not part of the model.
    - The [case _] arms of [eval] and [parser] guard against values
      outside the closed sets [Exp] and [Token]; on the inductive types
      here they have no input and are left out.
    - Python lists used as stacks keep Python's order: [append] adds at
      the end, [pop] removes the last element, [l[0]] is the head. *)

From Stdlib Require Import ZArith Ascii String List Lia.
From stdpp Require Import gmap strings list.
Import ListNotations.

Local Open Scope Z_scope.

(** ** Exceptions and results *)

Inductive exn : Type :=
| SyntaxError (msg : string)
| RuntimeError (msg : string) (arg : string)
| IndexError
| KeyError (key : string)
| ValueError (msg : string)
| ZeroDivisionError.

(** [OutOfFuel] is not a Python outcome: it is what the recursion
    counters of [lexer_depth] and [parser_loop] give when they reach
    zero, which [lexer] and [parser] never do ([lexer_terminates],
    [parser_terminates]). *)
Inductive result (A : Type) : Type :=
| Ok (a : A)
| Raise (e : exn)
| OutOfFuel.
Arguments Ok {A} a.
Arguments Raise {A} e.
Arguments OutOfFuel {A}.

#[global] Instance result_bind : MBind result := fun A B k r =>
  match r with
  | Ok a => k a
  | Raise e => Raise e
  | OutOfFuel => OutOfFuel
  end.

(** ** Expressions and tokens *)

Inductive Exp : Type :=
| Sum (left right : Exp)
| Difference (left right : Exp)
| Negation (exp : Exp)
| Product (left right : Exp)
| Quotient (left right : Exp)
| Int (val : Z)
| Assign (name : string) (val body : Exp)
| Var (name : string).

Inductive Token : Type :=
| VarToken (name : string)
| IntToken (val : Z)
| OpToken (val : string)
| ParToken (is_left : bool)
| EndToken.

(** ** Characters *)

Definition char_in (lo hi c : ascii) : bool :=
  (nat_of_ascii lo <=? nat_of_ascii c)%nat && (nat_of_ascii c <=? nat_of_ascii hi)%nat.

(** ["0" <= c <= "9"] *)
Definition is_digit (c : ascii) : bool := char_in "0" "9" c.

(** The code point of [c] lies between [lo] and [hi]. *)
Definition code_in (lo hi : nat) (c : ascii) : bool :=
  (lo <=? nat_of_ascii c)%nat && (nat_of_ascii c <=? hi)%nat.

(** [c.isalpha()]: the letters among the code points 0 to 255, which
    beside [a-z] and [A-Z] are U+00AA, U+00B5, U+00BA, U+00C0 to U+00D6,
    U+00D8 to U+00F6 and U+00F8 to U+00FF. *)
Definition isalpha (c : ascii) : bool :=
  char_in "a" "z" c || char_in "A" "Z" c
  || code_in 170 170 c || code_in 181 181 c || code_in 186 186 c
  || code_in 192 214 c || code_in 216 246 c || code_in 248 255 c.

(** [c.isalnum()]: the letters, the digits [0-9], and the code points
    below 256 for which [isdigit] or [isnumeric] holds: U+00B2, U+00B3,
    U+00B9 and U+00BC to U+00BE. *)
Definition isalnum (c : ascii) : bool :=
  isalpha c || is_digit c
  || code_in 178 179 c || code_in 185 185 c || code_in 188 190 c.

Definition is_underscore (c : ascii) : bool := Ascii.eqb c "_".

(** [c in "+-*/="] *)
Definition is_operator (c : ascii) : bool :=
  Ascii.eqb c "+" || Ascii.eqb c "-" || Ascii.eqb c "*" || Ascii.eqb c "/"
  || Ascii.eqb c "=".

(** [c in "()"] *)
Definition is_paren (c : ascii) : bool := Ascii.eqb c "(" || Ascii.eqb c ")".

(** [c in " \t\n\r"] *)
Definition is_space (c : ascii) : bool :=
  Ascii.eqb c " " || Ascii.eqb c "009" || Ascii.eqb c "010" || Ascii.eqb c "013".

Definition str1 (c : ascii) : string := String c EmptyString.

(** The prefix scanned by [while len(code) > i and p(code[i])]. *)
Fixpoint run (p : ascii -> bool) (code : list ascii) : list ascii :=
  match code with
  | c :: code' => if p c then c :: run p code' else []
  | [] => []
  end.

(** [int(integer)] for a string of decimal digits. *)
Definition digit_value (c : ascii) : Z := Z.of_nat (nat_of_ascii c) - 48.

Definition int_of_digits (integer : list ascii) : Z :=
  fold_left (fun acc c => 10 * acc + digit_value c) integer 0.

(** ** The tokenizer *)

(** The [match prev] of [lexer]: the previous-token cases in which a
    leading [-] is taken as a sign. *)
Definition sign_position (prev : option Token) : bool :=
  match prev with
  | None => true
  | Some (OpToken _) => true
  | Some (ParToken true) => true
  | Some EndToken => true
  | Some _ => false
  end.

(** [c.isalnum() or c == "_"] *)
Definition word_char (c : ascii) : bool := isalnum c || is_underscore c.

(** The [if]/[elif] chain of [lexer] on [code[0]], entered once the sign
    has been looked at: [is_subtraction] is the flag and [code] the text
    after a consumed sign.  [self] stands for the recursive calls.  An
    empty [code] is the failing [code[0]]. *)
Definition lexer_dispatch (self : list ascii -> option Token -> result (list Token))
    (is_subtraction : bool) (code : list ascii) (prev : option Token)
    : result (list Token) :=
  match code with
  | [] => Raise IndexError
  | c0 :: tl0 =>
    if is_digit c0 then
      let integer := run is_digit code in
      let i := length integer in
      let token :=
        if is_subtraction then IntToken (int_of_digits integer)
        else IntToken (- int_of_digits integer) in
      rest ← self (drop i code) (Some token);
      Ok (rest ++ [token])
    else if isalpha c0 || is_underscore c0 then
      let var_name := run word_char code in
      let i := length var_name in
      let token := VarToken (string_of_list_ascii var_name) in
      rest ← self (drop i code) (Some token);
      let rest := rest ++ [token] in
      Ok (if is_subtraction then rest else rest ++ [OpToken "*"; IntToken (-1)])
    else if is_operator c0 then
      rest ← self tl0 (Some (OpToken (str1 c0)));
      Ok (rest ++ [OpToken (str1 c0)])
    else if is_paren c0 then
      let token := ParToken (Ascii.eqb c0 "(") in
      rest ← self tl0 (Some token);
      let rest := rest ++ [token] in
      Ok (if is_subtraction then rest else rest ++ [OpToken "*"; IntToken (-1)])
    else if is_space c0 then
      self tl0 prev
    else if Ascii.eqb c0 ";" then
      rest ← self tl0 (Some EndToken);
      Ok (rest ++ [EndToken])
    else
      Raise (SyntaxError ("Unknown token " ++ str1 c0))
  end.

(** One activation of [lexer].  The returned list is in reverse source
    order (recursion, then append). *)
Definition lexer_body (self : list ascii -> option Token -> result (list Token))
    (code : list ascii) (prev : option Token) : result (list Token) :=
  match code with
  | [] => Ok []
  | c :: tl =>
    if Ascii.eqb c "-" && sign_position prev
    then lexer_dispatch self false tl prev
    else lexer_dispatch self true code prev
  end.

(** Recursion depth is bounded by the length of the text: every
    recursive call is on a strictly shorter string. *)
Fixpoint lexer_depth (depth : nat) (code : list ascii) (prev : option Token)
    : result (list Token) :=
  match depth with
  | O => OutOfFuel
  | S depth => lexer_body (lexer_depth depth) code prev
  end.

Definition lexer (code : list ascii) (prev : option Token) : result (list Token) :=
  lexer_depth (S (length code)) code prev.

(** [lexer(code, prev)[::-1]]: the tokens in source order. *)
Definition tokenize_from (prev : option Token) (code : list ascii)
    : result (list Token) :=
  tokens ← lexer code prev; Ok (rev tokens).

(** The host's [lexer(user_code)[::-1]]. *)
Definition tokenize (user_code : list ascii) : result (list Token) :=
  tokenize_from None user_code.

Definition text (s : string) : list ascii := list_ascii_of_string s.

(** ** The parser *)

(** [op_lookup]: a [defaultdict] whose factory raises. *)
Definition op_lookup (op : string) : result (Exp -> Exp -> Exp) :=
  if String.eqb op "+" then Ok Sum
  else if String.eqb op "-" then Ok Difference
  else if String.eqb op "*" then Ok Product
  else if String.eqb op "/" then Ok Quotient
  else Raise (ValueError "Unknown operator").

(** [op_precedence]: a plain [dict]. *)
Definition op_precedence (op : string) : result nat :=
  if String.eqb op "+" then Ok 1%nat
  else if String.eqb op "-" then Ok 1%nat
  else if String.eqb op "*" then Ok 2%nat
  else if String.eqb op "/" then Ok 2%nat
  else Raise (KeyError op).

(** [l.pop()] *)
Definition pop {A} (l : list A) : result (A * list A) :=
  match last l with
  | Some x => Ok (x, removelast l)
  | None => Raise IndexError
  end.

(** The two stacks of one [parser] activation. *)
Definition stacks : Type := list string * list Exp.

Definition handle_top (op : option string) (st : stacks) : result stacks :=
  let '(op_stk, exp_stk) := st in
  '(top, op_stk) ← pop op_stk;
  '(rhs, exp_stk) ← pop exp_stk;
  '(lhs, exp_stk) ← pop exp_stk;
  node ← op_lookup top;
  let exp_stk := exp_stk ++ [node lhs rhs] in
  match op with
  | Some (String _ _ as op) => Ok (op_stk ++ [op], exp_stk)
  | _ => Ok (op_stk, exp_stk)
  end.

(** [while op_stk: handle_top()]: each round pops one operator and pushes
    none, so the loop makes [len(op_stk)] rounds unless one raises. *)
Fixpoint drain_rounds (n : nat) (st : stacks) : result stacks :=
  match n with
  | O => Ok st
  | S n => st ← handle_top None st; drain_rounds n st
  end.

Definition drain (st : stacks) : result stacks := drain_rounds (length st.1) st.

(** [while op_stk: handle_top()] followed by [return exp_stk[0], pos]. *)
Definition finish (st : stacks) (pos : nat) : result (Exp * nat) :=
  '(_, exp_stk) ← drain st;
  match exp_stk with
  | exp :: _ => Ok (exp, pos)
  | [] => Raise IndexError
  end.

(** The body of [case OpToken(op)] for an operator other than [=]. *)
Definition push_operator (op : string) (st : stacks) : result stacks :=
  let '(op_stk, exp_stk) := st in
  match last op_stk with
  | None => Ok (op_stk ++ [op], exp_stk)
  | Some top =>
    p ← op_precedence op;
    q ← op_precedence top;
    if (p <=? q)%nat then handle_top (Some op) st
    else Ok (op_stk ++ [op], exp_stk)
  end.

(** The [while len(tokens) > pos] loop of [parser], entered with the
    loop state [pos], [op_stk], [exp_stk].  [fuel] counts loop rounds and
    nested calls together; a recursive call is [parser_loop] on the slice
    [tokens[pos:]] from the initial state. *)
Fixpoint parser_loop (fuel : nat) (tokens : list Token) (nested_level : nat)
    (pos : nat) (st : stacks) : result (Exp * nat) :=
  match fuel with
  | O => OutOfFuel
  | S fuel =>
    match tokens !! pos with
    | None => finish st pos
    | Some (IntToken val) =>
      parser_loop fuel tokens nested_level (pos + 1) (st.1, st.2 ++ [Int val])
    | Some (OpToken op) =>
      if String.eqb op "=" then
        match pop st.2 with
        | Ok (Var name, exp_stk) =>
          let pos := (pos + 1)%nat in
          '(val, k) ← parser_loop fuel (drop pos tokens) nested_level 0 ([], []);
          let pos := (pos + k)%nat in
          '(body, k) ← parser_loop fuel (drop pos tokens) nested_level 0 ([], []);
          let exp_stk := exp_stk ++ [Assign name val body] in
          let pos := (pos + k)%nat in
          finish (st.1, exp_stk) pos
        | _ => Raise (SyntaxError "Unexpected assignment")
        end
      else
        st ← push_operator op st;
        parser_loop fuel tokens nested_level (pos + 1) st
    | Some (ParToken true) =>
      let pos := (pos + 1)%nat in
      '(exp, k) ← parser_loop fuel (drop pos tokens) (nested_level + 1) 0 ([], []);
      parser_loop fuel tokens nested_level (pos + k) (st.1, st.2 ++ [exp])
    | Some (ParToken false) =>
      if (nested_level =? 0)%nat then Raise (SyntaxError "Unbalanced parentheses")
      else finish st (pos + 1)
    | Some (VarToken name) =>
      parser_loop fuel tokens nested_level (pos + 1) (st.1, st.2 ++ [Var name])
    | Some EndToken => finish st (pos + 1)
    end
  end.

Definition parser (tokens : list Token) (nested_level : nat) : result (Exp * nat) :=
  parser_loop (S (length tokens)) tokens nested_level 0 ([], []).

(** ** The evaluator *)

(** The dicts allocated so far, by address.  An address handed to [eval]
    is always that of an allocated dict; the total lookup [σ !!! env]
    reads the empty dict at any other address. *)
Abbreviation store := (list (gmap string Z)).

(** [a // b] *)
Definition floordiv (a b : Z) : result Z :=
  if b =? 0 then Raise ZeroDivisionError else Ok (a / b).

(** Evaluate [l], then [r], then combine. *)
Definition binary (f : Z -> Z -> result Z)
    (l r : store -> result Z * store) (σ : store) : result Z * store :=
  match l σ with
  | (Ok a, σ) =>
    match r σ with
    | (Ok b, σ) => (f a b, σ)
    | (Raise e, σ) => (Raise e, σ)
    | (OutOfFuel, σ) => (OutOfFuel, σ)
    end
  | (Raise e, σ) => (Raise e, σ)
  | (OutOfFuel, σ) => (OutOfFuel, σ)
  end.

(** [env.copy()]: a new dict with the same bindings, at a fresh address. *)
Definition copy (env : nat) (σ : store) : nat * store :=
  (length σ, σ ++ [σ !!! env]).

(** [env[name] = v]: update in place of the dict at address [env]. *)
Definition setitem (env : nat) (name : string) (v : Z) (σ : store) : store :=
  alter (insert name v) env σ.

Fixpoint eval (exp : Exp) (env : nat) (σ : store) : result Z * store :=
  match exp with
  | Sum l r =>
    binary (fun a b => Ok (a + b)) (eval l env) (eval r env) σ
  | Difference l r =>
    binary (fun a b => Ok (a - b)) (eval l env) (eval r env) σ
  | Negation exp =>
    match eval exp env σ with
    | (Ok a, σ) => (Ok (- a), σ)
    | r => r
    end
  | Product l r =>
    binary (fun a b => Ok (a * b)) (eval l env) (eval r env) σ
  | Quotient l r =>
    binary floordiv (eval l env) (eval r env) σ
  | Int val => (Ok val, σ)
  | Assign name val body =>
    let '(env, σ) := copy env σ in
    match eval val env σ with
    | (Ok v, σ) => eval body env (setitem env name v σ)
    | r => r
    end
  | Var name =>
    match (σ !!! env) !! name with
    | Some v => (Ok v, σ)
    | None => (Raise (RuntimeError "Unbound variable" name), σ)
    end
  end.

(** ** The host's pipeline *)

(** [eval(parser(lexer(user_code)[::-1])[0], env.copy())], with the
    host's dict at address [env]. *)
Definition interpret (user_code : list ascii) (env : nat) (σ : store)
    : result Z * store :=
  match tokens ← tokenize user_code; parser tokens 0 with
  | Ok (ast, _) => let '(env, σ) := copy env σ in eval ast env σ
  | Raise e => (Raise e, σ)
  | OutOfFuel => (OutOfFuel, σ)
  end.

(** A run of one line from the host's start state: [env = {}]. *)
Definition run_line (user_code : string) : result Z :=
  (interpret (text user_code) 0 [∅]).1.

(** How a session of the host's loop ends: [input] raises [EOFError] and
    the loop prints its farewell and breaks, or the pipeline raises, which
    the loop does not catch.  [Unfinished] stands for [OutOfFuel]. *)
Inductive host_end : Type :=
| Bye
| Uncaught (e : exn)
| Unfinished.

(** The [while True] loop, on the lines that [input] returns before it
    raises [EOFError].  The integers are the ones handed to [print], in
    order; [env] is the address of the module's dict [env]. *)
Fixpoint host (lines : list (list ascii)) (env : nat) (σ : store)
    : list Z * host_end :=
  match lines with
  | [] => ([], Bye)
  | user_code :: lines =>
    match interpret user_code env σ with
    | (Ok v, σ) => let '(out, e) := host lines env σ in (v :: out, e)
    | (Raise e, _) => ([], Uncaught e)
    | (OutOfFuel, _) => ([], Unfinished)
    end
  end.

(** ** Notions used in the statements *)

(** The text ends, or starts, with a character of a number or a name. *)
Definition ends_word (code : list ascii) : bool :=
  match last code with
  | Some c => word_char c
  | None => false
  end.

(** [code] starts with a character satisfying [p]. *)
Definition starts_with (p : ascii -> bool) (code : list ascii) : bool :=
  match code with
  | c :: _ => p c
  | [] => false
  end.

Definition starts_word (code : list ascii) : bool := starts_with word_char code.

(** A cut between [pre] and [suf] that does not fall inside a number or
    a name. *)
Definition boundary (pre suf : list ascii) : Prop :=
  ends_word pre && starts_word suf = false.

(** The token the tokenizer has last read once it has returned [tokens]
    (most recent first) for the text so far, having started from [prev]. *)
Definition prev_after (prev : option Token) (tokens : list Token) : option Token :=
  match tokens with
  | t :: _ => Some t
  | [] => prev
  end.

(** What the tokenizer returns for [pre ++ suf] when it returned [tokens]
    for [pre]: the tokens of [suf], read on from the last token of [pre],
    then (the list being in reverse order) those of [pre]. *)
Definition read_on (suf : list ascii) (prev : option Token) (tokens : list Token)
    : result (list Token) :=
  rest ← lexer suf (prev_after prev tokens); Ok (rest ++ tokens).

(** The last token of the text read so far, [prev] if there is none. *)
Definition last_token (prev : option Token) (tokens : list Token) : option Token :=
  match last tokens with
  | Some t => Some t
  | None => prev
  end.

(** The value of [exp] under an environment with bindings [d]: [eval] run
    on a dict holding [d] ([eval_result]: the address and the other
    dicts of the store do not matter). *)
Definition value_in (exp : Exp) (d : gmap string Z) : result Z :=
  (eval exp 0%nat [d]).1.

(** The environments at two addresses of two stores hold the same
    bindings. *)
Definition same_env (env : nat) (σ : store) (env2 : nat) (σ2 : store) : Prop :=
  (env < length σ)%nat /\ (env2 < length σ2)%nat /\ σ !!! env = σ2 !!! env2.

(** The exceptions a [parser] call can end with.  The generic
    [SyntaxError("Syntax Error")] of the source's [case _] is not among
    them: every token kind has a case of its own before it. *)
Definition parser_error (e : exn) : Prop :=
  e = IndexError \/ (exists op, e = KeyError op) \/ e = ValueError "Unknown operator"
  \/ e = SyntaxError "Unexpected assignment" \/ e = SyntaxError "Unbalanced parentheses".

(** A character that some branch of [lexer] accepts. *)
Definition known_char (c : ascii) : bool :=
  is_digit c || (isalpha c || is_underscore c) || is_operator c || is_paren c
  || is_space c || Ascii.eqb c ";".

(** The exceptions a [lexer] call on [code] can end with. *)
Definition lexer_error (code : list ascii) (e : exn) : Prop :=
  e = IndexError
  \/ exists c, In c code /\ known_char c = false
              /\ e = SyntaxError ("Unknown token " ++ str1 c).

(** The strings of [op_precedence]'s keys, and those [lexer] puts in an
    [OpToken]. *)
Definition arith_op (v : string) : bool :=
  String.eqb v "+" || String.eqb v "-" || String.eqb v "*" || String.eqb v "/".

Definition op_symbol (v : string) : bool := arith_op v || String.eqb v "=".

(** A token as [lexer] makes them. *)
Definition lexer_token (t : Token) : Prop :=
  match t with
  | OpToken v => op_symbol v = true
  | _ => True
  end.

(** The exceptions [parser] can end with on tokens made by [lexer]. *)
Definition parse_error (e : exn) : Prop :=
  e = IndexError \/ e = SyntaxError "Unexpected assignment"
  \/ e = SyntaxError "Unbalanced parentheses".

(** The operator stack holds keys of [op_precedence] only. *)
Definition ops_ok (st : stacks) : Prop := Forall (fun v => arith_op v = true) st.1.

(** The evaluator read as a function of the expression and of immutable
    bindings: operands left to right, [Assign] as a [let] whose binding
    holds in the body only.  [eval_is_denote] relates [eval] to it. *)
Fixpoint denote (exp : Exp) (d : gmap string Z) : result Z :=
  match exp with
  | Sum l r => a ← denote l d; b ← denote r d; Ok (a + b)
  | Difference l r => a ← denote l d; b ← denote r d; Ok (a - b)
  | Negation e => a ← denote e d; Ok (- a)
  | Product l r => a ← denote l d; b ← denote r d; Ok (a * b)
  | Quotient l r => a ← denote l d; b ← denote r d; floordiv a b
  | Int val => Ok val
  | Assign name val body => v ← denote val d; denote body (<[name:=v]> d)
  | Var name =>
    match d !! name with
    | Some v => Ok v
    | None => Raise (RuntimeError "Unbound variable" name)
    end
  end.

(** The names in the [Var] nodes of an expression. *)
Fixpoint names (exp : Exp) : list string :=
  match exp with
  | Sum l r | Difference l r | Product l r | Quotient l r => names l ++ names r
  | Negation e => names e
  | Int _ => []
  | Assign _ val body => names val ++ names body
  | Var name => [name]
  end.

(** The expression has a [Quotient] node. *)
Fixpoint divides (exp : Exp) : bool :=
  match exp with
  | Sum l r | Difference l r | Product l r => divides l || divides r
  | Quotient _ _ => true
  | Negation e => divides e
  | Int _ | Var _ => false
  | Assign _ val body => divides val || divides body
  end.

(** The exceptions [eval] can end with on [exp]. *)
Definition eval_error (exp : Exp) (e : exn) : Prop :=
  (e = ZeroDivisionError /\ divides exp = true)
  \/ exists x, In x (names exp) /\ e = RuntimeError "Unbound variable" x.

(** A session read off the results of its lines: the values up to the
    first line that does not give one. *)
Fixpoint session (results : list (result Z)) : list Z * host_end :=
  match results with
  | [] => ([], Bye)
  | Ok v :: results => let '(out, e) := session results in (v :: out, e)
  | Raise e :: _ => ([], Uncaught e)
  | OutOfFuel :: _ => ([], Unfinished)
  end.

(** The exceptions a line can end with. *)
Definition line_error (code : list ascii) (e : exn) : Prop :=
  lexer_error code e \/ parse_error e \/ e = ZeroDivisionError
  \/ exists x, e = RuntimeError "Unbound variable" x.

(** A literal or name token, and the leaf the parser pushes for it. *)
Definition atom (t : Token) : bool :=
  match t with
  | IntToken _ | VarToken _ => true
  | _ => false
  end.

Definition operand (t : Token) : Exp :=
  match t with
  | VarToken name => Var name
  | IntToken val => Int val
  | _ => Int 0
  end.

(** The node [op_lookup] gives for an arithmetic operator. *)
Definition node (op : string) : Exp -> Exp -> Exp :=
  match op_lookup op with
  | Ok f => f
  | _ => Sum
  end.

(** The tokens of [op1 t1 op2 t2 ...], and the left-nested tree of
    [t0 op1 t1 op2 t2 ...]. *)
Definition chain (rest : list (string * Token)) : list Token :=
  flat_map (fun p => [OpToken p.1; p.2]) rest.

Definition left_nested (t0 : Token) (rest : list (string * Token)) : Exp :=
  fold_left (fun acc p => node p.1 acc (operand p.2)) rest (operand t0).

(** Where the parse of an expression stops: at the end of the tokens, at
    a terminator, or at a close parenthesis inside a nested parse; with
    the number of tokens the stop itself consumes. *)
Definition stop_len (nested_level : nat) (tail : list Token) : option nat :=
  match tail with
  | [] => Some 0%nat
  | EndToken :: _ => Some 1%nat
  | ParToken false :: _ => if (nested_level =? 0)%nat then None else Some 1%nat
  | _ => None
  end.

(** * Properties *)

(** ** The tokenizer's recursion *)

Lemma run_cons_true p c code : p c = true -> run p (c :: code) = c :: run p code.
Proof. intros H. simpl. rewrite H. reflexivity. Qed.

Lemma drop_run_shorter p c code :
  p c = true -> (length (drop (length (run p (c :: code))) (c :: code)) < length (c :: code))%nat.
Proof.
  intros H. rewrite run_cons_true by assumption. simpl.
  rewrite length_drop. lia.
Qed.

Lemma isalpha_word c : isalpha c || is_underscore c = true -> word_char c = true.
Proof.
  unfold word_char, isalnum.
  destruct (isalpha c), (is_underscore c); simpl; rewrite ?orb_true_r; congruence.
Qed.

(** An activation only calls itself on strictly shorter text. *)
Lemma lexer_dispatch_ext f g b code prev :
  (forall code' p, (length code' < length code)%nat -> f code' p = g code' p) ->
  lexer_dispatch f b code prev = lexer_dispatch g b code prev.
Proof.
  intros H. unfold lexer_dispatch.
  destruct code as [|c0 tl0]; [reflexivity|]. cbv zeta.
  destruct (is_digit c0) eqn:Hd.
  { rewrite H; [reflexivity | apply drop_run_shorter; exact Hd]. }
  destruct (isalpha c0 || is_underscore c0) eqn:Ha.
  { rewrite H; [reflexivity | apply drop_run_shorter, isalpha_word; exact Ha]. }
  rewrite !(H tl0) by (simpl; lia). reflexivity.
Qed.

Lemma lexer_body_ext f g code prev :
  (forall code' p, (length code' < length code)%nat -> f code' p = g code' p) ->
  lexer_body f code prev = lexer_body g code prev.
Proof.
  intros H. unfold lexer_body.
  destruct code as [|c tl]; [reflexivity|].
  destruct (Ascii.eqb c "-" && sign_position prev).
  - apply lexer_dispatch_ext. intros code' p Hlt. apply H. simpl. lia.
  - apply lexer_dispatch_ext. exact H.
Qed.

Lemma lexer_depth_stable n : forall m code prev,
  (length code < n)%nat -> (length code < m)%nat ->
  lexer_depth n code prev = lexer_depth m code prev.
Proof.
  induction n as [|n IH]; intros m code prev Hn Hm; [lia|].
  destruct m as [|m]; [lia|]. simpl.
  apply lexer_body_ext. intros code' p Hlt. apply IH; lia.
Qed.

(** The defining equation of [lexer], as the source reads. *)
Lemma lexer_unfold code prev : lexer code prev = lexer_body lexer code prev.
Proof.
  unfold lexer at 1. simpl.
  apply lexer_body_ext. intros code' p Hlt.
  unfold lexer. apply lexer_depth_stable; lia.
Qed.

Lemma bind_terminates {A B} (m : result A) (k : A -> result B) :
  m <> OutOfFuel -> (forall a, k a <> OutOfFuel) -> m ≫= k <> OutOfFuel.
Proof. intros Hm Hk. destruct m; simpl; [apply Hk | discriminate | congruence]. Qed.

Lemma lexer_dispatch_terminates b code prev :
  (forall code' p, (length code' < length code)%nat -> lexer code' p <> OutOfFuel) ->
  lexer_dispatch lexer b code prev <> OutOfFuel.
Proof.
  intros H. unfold lexer_dispatch.
  destruct code as [|c0 tl0]; [discriminate|]. cbv zeta.
  destruct (is_digit c0) eqn:Hd.
  { apply bind_terminates; [apply H, drop_run_shorter; exact Hd | discriminate]. }
  destruct (isalpha c0 || is_underscore c0) eqn:Ha.
  { apply bind_terminates;
      [apply H, drop_run_shorter, isalpha_word; exact Ha | discriminate]. }
  assert (Htl : forall p, lexer tl0 p <> OutOfFuel) by (intros p; apply H; simpl; lia).
  destruct (is_operator c0); [apply bind_terminates; [apply Htl | discriminate]|].
  destruct (is_paren c0); [apply bind_terminates; [apply Htl | discriminate]|].
  destruct (is_space c0); [apply Htl|].
  destruct (Ascii.eqb c0 ";"); [apply bind_terminates; [apply Htl | discriminate]|].
  discriminate.
Qed.

(** The tokenizer returns or raises on every text: the recursion counter
    of [lexer] never runs out. *)
Lemma lexer_terminates code : forall prev, lexer code prev <> OutOfFuel.
Proof.
  induction code as [code IH] using (induction_ltof1 _ (@length ascii)).
  unfold ltof in IH. intros prev.
  rewrite lexer_unfold. unfold lexer_body.
  destruct code as [|c tl]; [discriminate|].
  destruct (Ascii.eqb c "-" && sign_position prev).
  - apply lexer_dispatch_terminates. intros code' p Hlt. apply IH. simpl. lia.
  - apply lexer_dispatch_terminates. intros code' p Hlt. apply IH. exact Hlt.
Qed.

(** ** Cutting the text at a token boundary *)

Lemma is_digit_word c : is_digit c = true -> word_char c = true.
Proof.
  unfold word_char, isalnum. intros ->.
  destruct (isalpha c); reflexivity.
Qed.

Lemma ends_word_cons c code : code <> [] -> ends_word (c :: code) = ends_word code.
Proof. destruct code; [congruence|]. intros _. reflexivity. Qed.

Lemma run_length_le p code : (length (run p code) <= length code)%nat.
Proof. induction code as [|c code IH]; simpl; [lia|]. destruct (p c); simpl; lia. Qed.

Lemma run_app p pre suf :
  (forall c, p c = true -> word_char c = true) ->
  pre <> [] -> boundary pre suf -> run p (pre ++ suf) = run p pre.
Proof.
  intros Hp. unfold boundary.
  induction pre as [|c pre IH]; [congruence|]. intros _ Hb. simpl.
  destruct (p c) eqn:Hc; [|reflexivity]. f_equal.
  destruct pre as [|c' pre].
  - simpl. unfold ends_word in Hb. simpl in Hb. rewrite (Hp c Hc) in Hb. simpl in Hb.
    destruct suf as [|d suf]; [reflexivity|]. simpl in *.
    destruct (p d) eqn:Hd; [|reflexivity]. rewrite (Hp d Hd) in Hb. discriminate.
  - apply IH; [discriminate|]. rewrite ends_word_cons in Hb by discriminate. exact Hb.
Qed.

Lemma ends_word_drop i code : ends_word (drop i code) = true -> ends_word code = true.
Proof.
  revert i. induction code as [|c code IH]; intros i H.
  - rewrite drop_nil in H. exact H.
  - destruct i as [|i]; [exact H|]. simpl in H.
    destruct code as [|c' code]; [rewrite drop_nil in H; discriminate|].
    rewrite ends_word_cons by discriminate. apply (IH i). exact H.
Qed.

Lemma boundary_drop i pre suf : boundary pre suf -> boundary (drop i pre) suf.
Proof.
  unfold boundary. intros H.
  destruct (ends_word (drop i pre)) eqn:He; [|reflexivity].
  rewrite (ends_word_drop _ _ He) in H. exact H.
Qed.

Lemma boundary_tail c pre suf : boundary (c :: pre) suf -> boundary pre suf.
Proof. apply (boundary_drop 1). Qed.

Lemma bind_Ok_inv {A B} (m : result A) (f : A -> B) (b : B) :
  (a ← m; Ok (f a)) = Ok b -> exists a, m = Ok a /\ b = f a.
Proof. destruct m; simpl; intros H; inversion H. eauto. Qed.

Lemma prev_after_app prev tokens t more :
  prev_after prev ((tokens ++ [t]) ++ more) = prev_after (Some t) tokens.
Proof. destruct tokens; reflexivity. Qed.

Lemma prev_after_snoc prev tokens t :
  prev_after prev (tokens ++ [t]) = prev_after (Some t) tokens.
Proof. destruct tokens; reflexivity. Qed.

Lemma read_on_snoc suf prev tokens t more :
  (rest ← read_on suf (Some t) tokens; Ok ((rest ++ [t]) ++ more))
  = read_on suf prev ((tokens ++ [t]) ++ more).
Proof.
  unfold read_on. rewrite prev_after_app.
  destruct (lexer suf (prev_after (Some t) tokens)); simpl; [|reflexivity..].
  rewrite <- !app_assoc. reflexivity.
Qed.

Lemma read_on_snoc1 suf prev tokens t :
  (rest ← read_on suf (Some t) tokens; Ok (rest ++ [t]))
  = read_on suf prev (tokens ++ [t]).
Proof.
  unfold read_on. rewrite prev_after_snoc.
  destruct (lexer suf (prev_after (Some t) tokens)); simpl; [|reflexivity..].
  rewrite <- !app_assoc. reflexivity.
Qed.

Lemma lexer_dispatch_app b code prev suf tokens :
  (forall pre' p' tokens', (length pre' < length code)%nat ->
     lexer pre' p' = Ok tokens' -> boundary pre' suf ->
     lexer (pre' ++ suf) p' = read_on suf p' tokens') ->
  lexer_dispatch lexer b code prev = Ok tokens -> boundary code suf ->
  lexer_dispatch lexer b (code ++ suf) prev = read_on suf prev tokens.
Proof.
  intros IH H Hb.
  destruct code as [|c0 tl0]; [discriminate H|].
  rewrite <- app_comm_cons. unfold lexer_dispatch in *.
  rewrite (app_comm_cons tl0 suf c0).
  destruct (is_digit c0) eqn:Hd.
  { rewrite (run_app is_digit) by (auto using is_digit_word || discriminate).
    rewrite drop_app_le by apply run_length_le.
    apply bind_Ok_inv in H as (rest & Hrest & ->).
    rewrite (IH _ _ _ (drop_run_shorter _ _ _ Hd) Hrest (boundary_drop _ _ _ Hb)).
    apply read_on_snoc1. }
  destruct (isalpha c0 || is_underscore c0) eqn:Ha.
  { rewrite (run_app word_char) by (auto || discriminate).
    rewrite drop_app_le by apply run_length_le.
    apply bind_Ok_inv in H as (rest & Hrest & ->).
    rewrite (IH _ _ _ (drop_run_shorter _ _ _ (isalpha_word _ Ha)) Hrest
               (boundary_drop _ _ _ Hb)).
    destruct b.
    - apply read_on_snoc1.
    - apply read_on_snoc. }
  assert (Htl : forall p' tokens', lexer tl0 p' = Ok tokens' ->
            lexer (tl0 ++ suf) p' = read_on suf p' tokens').
  { intros p' tokens' H'. apply IH; [simpl; lia | exact H' |].
    exact (boundary_tail _ _ _ Hb). }
  destruct (is_operator c0).
  { apply bind_Ok_inv in H as (rest & Hrest & ->). rewrite (Htl _ _ Hrest).
    apply read_on_snoc1. }
  destruct (is_paren c0).
  { apply bind_Ok_inv in H as (rest & Hrest & ->). rewrite (Htl _ _ Hrest).
    destruct b.
    - apply read_on_snoc1.
    - apply read_on_snoc. }
  destruct (is_space c0); [apply Htl; exact H|].
  destruct (Ascii.eqb c0 ";"); [|discriminate H].
  apply bind_Ok_inv in H as (rest & Hrest & ->). rewrite (Htl _ _ Hrest).
  apply read_on_snoc1.
Qed.

(** Tokenizing a text cut at a token boundary: when the part before the
    cut tokenizes, the whole is read as that part followed by the rest. *)
Lemma lexer_app pre : forall prev suf tokens,
  lexer pre prev = Ok tokens -> boundary pre suf ->
  lexer (pre ++ suf) prev = read_on suf prev tokens.
Proof.
  induction pre as [pre IH] using (induction_ltof1 _ (@length ascii)).
  unfold ltof in IH. intros prev suf tokens H Hb.
  rewrite lexer_unfold in H. unfold lexer_body in H.
  destruct pre as [|c tl].
  { inversion H; subst. unfold read_on. simpl.
    destruct (lexer suf prev); simpl; rewrite ?app_nil_r; reflexivity. }
  rewrite lexer_unfold, <- app_comm_cons. unfold lexer_body.
  destruct (Ascii.eqb c "-" && sign_position prev).
  - apply lexer_dispatch_app; [|exact H|].
    + intros pre' p' tokens' Hlt. apply IH. simpl. lia.
    + destruct tl; [discriminate H|]. exact (boundary_tail _ _ _ Hb).
  - rewrite app_comm_cons. apply lexer_dispatch_app; [|exact H|exact Hb].
    intros pre' p' tokens' Hlt. apply IH. exact Hlt.
Qed.

(** Whitespace is skipped and leaves the previous token as it was. *)
Lemma lexer_skip_spaces ws code prev :
  forallb is_space ws = true -> lexer (ws ++ code) prev = lexer code prev.
Proof.
  induction ws as [|w ws IH]; intros H; [reflexivity|].
  simpl in H. apply andb_prop in H as [Hw Hws].
  rewrite <- app_comm_cons, lexer_unfold. unfold lexer_body, lexer_dispatch.
  assert (Hm : Ascii.eqb w "-" = false).
  { destruct (Ascii.eqb_spec w "-") as [->|]; [discriminate Hw | reflexivity]. }
  rewrite Hm. simpl.
  assert (Hc : is_digit w = false /\ isalpha w || is_underscore w = false
               /\ is_operator w = false /\ is_paren w = false).
  { revert Hw. unfold is_space.
    destruct (Ascii.eqb_spec w " ") as [->|]; [intros _; vm_compute; auto|].
    destruct (Ascii.eqb_spec w "009") as [->|]; [intros _; vm_compute; auto|].
    destruct (Ascii.eqb_spec w "010") as [->|]; [intros _; vm_compute; auto|].
    destruct (Ascii.eqb_spec w "013") as [->|]; [intros _; vm_compute; auto|].
    discriminate. }
  destruct Hc as (-> & -> & -> & ->). rewrite Hw. apply IH. exact Hws.
Qed.

(** ** The tokens in source order *)

Lemma prev_after_rev prev tokens : prev_after prev tokens = last_token prev (rev tokens).
Proof.
  unfold last_token. destruct tokens as [|t tokens]; [reflexivity|].
  simpl. rewrite last_snoc. reflexivity.
Qed.

Lemma tokenize_from_Ok prev code ts :
  tokenize_from prev code = Ok ts -> lexer code prev = Ok (rev ts).
Proof.
  unfold tokenize_from. intros H.
  apply bind_Ok_inv in H as (tokens & -> & ->). rewrite rev_involutive. reflexivity.
Qed.

Lemma tokenize_from_app prev pre suf ts :
  tokenize_from prev pre = Ok ts -> boundary pre suf ->
  tokenize_from prev (pre ++ suf)
  = us ← tokenize_from (last_token prev ts) suf; Ok (ts ++ us).
Proof.
  intros H Hb. apply tokenize_from_Ok in H.
  unfold tokenize_from. rewrite (lexer_app _ _ _ _ H Hb). unfold read_on.
  rewrite prev_after_rev, rev_involutive.
  destruct (lexer suf (last_token prev ts)); simpl; [|reflexivity..].
  rewrite rev_app_distr, rev_involutive. reflexivity.
Qed.

Lemma tokenize_from_spaces prev ws code :
  forallb is_space ws = true -> tokenize_from prev (ws ++ code) = tokenize_from prev code.
Proof. intros H. unfold tokenize_from. rewrite lexer_skip_spaces by exact H. reflexivity. Qed.

Lemma run_exact p ds rest :
  forallb p ds = true -> starts_with p rest = false -> run p (ds ++ rest) = ds.
Proof.
  intros Hds Hrest. induction ds as [|d ds IH]; simpl in *.
  - destruct rest as [|c rest]; [reflexivity|]. simpl in *. rewrite Hrest. reflexivity.
  - apply andb_prop in Hds as [-> Hds]. rewrite IH by exact Hds. reflexivity.
Qed.

Lemma lexer_dispatch_digits self b ds rest prev :
  ds <> [] -> forallb is_digit ds = true -> starts_with is_digit rest = false ->
  lexer_dispatch self b (ds ++ rest) prev
  = let token := IntToken (if b then int_of_digits ds else - int_of_digits ds) in
    tokens ← self rest (Some token); Ok (tokens ++ [token]).
Proof.
  intros Hne Hds Hrest. destruct ds as [|d ds]; [congruence|].
  pose proof Hds as Hd. simpl in Hd. apply andb_prop in Hd as [Hd _].
  rewrite <- app_comm_cons. unfold lexer_dispatch. rewrite Hd.
  rewrite (app_comm_cons ds rest d), run_exact, drop_app_length by assumption.
  destruct b; reflexivity.
Qed.

Lemma is_digit_not_minus d : is_digit d = true -> Ascii.eqb d "-" = false.
Proof. destruct (Ascii.eqb_spec d "-") as [->|]; [discriminate | reflexivity]. Qed.

(** A run of digits is one literal. *)
Lemma tokenize_from_digits prev ds rest :
  ds <> [] -> forallb is_digit ds = true -> starts_with is_digit rest = false ->
  tokenize_from prev (ds ++ rest)
  = us ← tokenize_from (Some (IntToken (int_of_digits ds))) rest;
    Ok (IntToken (int_of_digits ds) :: us).
Proof.
  intros Hne Hds Hrest. unfold tokenize_from. rewrite lexer_unfold.
  pose proof (lexer_dispatch_digits lexer true ds rest prev Hne Hds Hrest) as E.
  destruct ds as [|d ds]; [congruence|].
  pose proof Hds as Hd. simpl in Hd. apply andb_prop in Hd as [Hd _].
  rewrite <- app_comm_cons in *. unfold lexer_body.
  rewrite (is_digit_not_minus d Hd). simpl andb. cbv iota. rewrite E. cbv zeta.
  destruct (lexer rest _); simpl; [|reflexivity..].
  rewrite rev_app_distr. reflexivity.
Qed.

(** A [-] in a sign position before digits: one negative literal. *)
Lemma tokenize_from_sign prev ds rest :
  sign_position prev = true ->
  ds <> [] -> forallb is_digit ds = true -> starts_with is_digit rest = false ->
  tokenize_from prev ("-"%char :: ds ++ rest)
  = us ← tokenize_from (Some (IntToken (- int_of_digits ds))) rest;
    Ok (IntToken (- int_of_digits ds) :: us).
Proof.
  intros Hs Hne Hds Hrest. unfold tokenize_from. rewrite lexer_unfold.
  unfold lexer_body. rewrite Hs. simpl andb. cbv iota.
  rewrite lexer_dispatch_digits by assumption. cbv zeta.
  destruct (lexer rest _); simpl; [|reflexivity..].
  rewrite rev_app_distr. reflexivity.
Qed.

(** A [-] elsewhere: the subtraction operator, whatever follows. *)
Lemma tokenize_from_minus prev code :
  sign_position prev = false ->
  tokenize_from prev ("-"%char :: code)
  = us ← tokenize_from (Some (OpToken "-")) code; Ok (OpToken "-" :: us).
Proof.
  intros Hs. unfold tokenize_from. rewrite lexer_unfold.
  unfold lexer_body. rewrite Hs. simpl andb. cbv iota.
  unfold lexer_dispatch. simpl.
  destruct (lexer code _); simpl; [|reflexivity..].
  rewrite rev_app_distr. reflexivity.
Qed.

Lemma bind_cons_app {A} (m : result (list A)) (t : A) (ts : list A) :
  (us ← (us' ← m; Ok (t :: us')); Ok (ts ++ us)) = us ← m; Ok (ts ++ t :: us).
Proof. destruct m; reflexivity. Qed.

Lemma boundary_non_word pre c suf : word_char c = false -> boundary pre (c :: suf).
Proof. intros H. unfold boundary. simpl. rewrite H. apply andb_false_r. Qed.

(** ** Unary minus before a literal *)

(** X26. Where the text [pre] before a [-] tokenizes on its own, to the
    tokens [ts], and digits follow the [-]: the [-] is folded into one
    negative literal exactly when [ts] is empty or ends with an operator,
    an open parenthesis or a terminator; after an integer literal, a name
    or a close parenthesis it is the subtraction operator and the literal
    stays positive.  (A [pre] that ends in a [-] taken as a sign does not
    tokenize on its own: see [sign_lost_before_minus].) *)
Theorem minus_before_literal pre ts ds rest :
  tokenize pre = Ok ts ->
  ds <> [] -> forallb is_digit ds = true -> starts_with is_digit rest = false ->
  let n := int_of_digits ds in
  match last ts with
  | None | Some (OpToken _) | Some (ParToken true) | Some EndToken =>
    tokenize (pre ++ "-"%char :: ds ++ rest)
    = us ← tokenize_from (Some (IntToken (- n))) rest;
      Ok (ts ++ IntToken (- n) :: us)
  | Some (IntToken _) | Some (VarToken _) | Some (ParToken false) =>
    tokenize (pre ++ "-"%char :: ds ++ rest)
    = us ← tokenize_from (Some (IntToken n)) rest;
      Ok (ts ++ OpToken "-" :: IntToken n :: us)
  end.
Proof.
  intros H Hne Hds Hrest n. unfold tokenize in *.
  assert (Hb : boundary pre ("-"%char :: ds ++ rest))
    by (apply boundary_non_word; reflexivity).
  rewrite (tokenize_from_app _ _ _ _ H Hb). unfold last_token.
  assert (Hfold : forall prev, sign_position prev = true ->
    (us ← tokenize_from prev ("-"%char :: ds ++ rest); Ok (ts ++ us))
    = us ← tokenize_from (Some (IntToken (- n))) rest; Ok (ts ++ IntToken (- n) :: us)).
  { intros prev Hs. rewrite tokenize_from_sign by assumption. apply bind_cons_app. }
  assert (Hop : forall prev, sign_position prev = false ->
    (us ← tokenize_from prev ("-"%char :: ds ++ rest); Ok (ts ++ us))
    = us ← tokenize_from (Some (IntToken n)) rest;
      Ok (ts ++ OpToken "-" :: IntToken n :: us)).
  { intros prev Hs. rewrite tokenize_from_minus by assumption.
    rewrite tokenize_from_digits by assumption. fold n.
    destruct (tokenize_from (Some (IntToken n)) rest); reflexivity. }
  destruct (last ts) as [[x|v|v|[|]|]|]; (apply Hfold || apply Hop); reflexivity.
Qed.

Lemma minus_before_literal_witness :
  tokenize (text "2*(-31+x)-4")
  = Ok [IntToken 2; OpToken "*"; ParToken true; IntToken (-31); OpToken "+";
        VarToken "x"; ParToken false; OpToken "-"; IntToken 4]
  /\ tokenize (text "7-5") = Ok [IntToken 7; OpToken "-"; IntToken 5].
Proof.
  split.
  - exact (minus_before_literal (text "2*(") [IntToken 2; OpToken "*"; ParToken true]
             (text "31") (text "+x)-4") eq_refl ltac:(discriminate) eq_refl eq_refl).
  - exact (minus_before_literal (text "7") [IntToken 7] (text "5") []
             eq_refl ltac:(discriminate) eq_refl eq_refl).
Defined.

(** C2, at the inputs [--5] and [1+--5]. The first [-] stands at the
    start, or after an operator, and is consumed as a sign; what follows
    it is no digit, and the operator branch does not look at the flag, so
    the sign is lost.  The second [-], directly before the literal and
    with no literal, name or close parenthesis before it, is emitted as the
    subtraction operator and the literal stays positive, where the
    claim has it folded into a negative literal, as in [-5] and [1+-5]. *)
Theorem sign_lost_before_minus :
  tokenize (text "--5") = Ok [OpToken "-"; IntToken 5]
  /\ tokenize (text "1+--5") = Ok [IntToken 1; OpToken "+"; OpToken "-"; IntToken 5]
  /\ tokenize (text "-5") = Ok [IntToken (-5)]
  /\ tokenize (text "1+-5") = Ok [IntToken 1; OpToken "+"; IntToken (-5)].
Proof. repeat split; vm_compute; reflexivity. Qed.

(** A sign-position [-] that is not followed by a digit, a name or a
    parenthesis: the sign is consumed and lost, and the text after it is
    read as if the [-] had not been there; at the end of the text the
    tokenizer fails on [code[0]]. *)
Remark sign_without_operand :
  tokenize (text "--5") = Ok [OpToken "-"; IntToken 5]
  /\ tokenize (text "- 5") = Ok [IntToken 5]
  /\ tokenize (text "-;1") = Ok [EndToken; IntToken 1]
  /\ tokenize (text "-") = Raise IndexError.
Proof. repeat split; vm_compute; reflexivity. Qed.

(** ** Source order *)

(** C9. The token sequence handed on by the tokenizer is in source
    order: for every text cut at a token boundary whose first part
    tokenizes, the tokens of the first part come first, as they are, and
    the tokens read from the rest of the text follow them. *)
Theorem tokenize_source_order pre suf ts :
  tokenize pre = Ok ts -> boundary pre suf ->
  tokenize (pre ++ suf) = us ← tokenize_from (last ts) suf; Ok (ts ++ us).
Proof.
  intros H Hb. unfold tokenize in *.
  rewrite (tokenize_from_app _ _ _ _ H Hb). unfold last_token.
  destruct (last ts); reflexivity.
Qed.

Lemma tokenize_source_order_witness :
  tokenize (text "x1 = 40/(y+2);x1")
  = Ok [VarToken "x1"; OpToken "="; IntToken 40; OpToken "/"; ParToken true;
        VarToken "y"; OpToken "+"; IntToken 2; ParToken false; EndToken;
        VarToken "x1"].
Proof.
  exact (tokenize_source_order (text "x1 = 40/") (text "(y+2);x1")
           [VarToken "x1"; OpToken "="; IntToken 40; OpToken "/"] eq_refl eq_refl).
Defined.

(** ** Subtraction after whitespace *)

(** C10. When a [-] follows an integer literal, an identifier or a close
    parenthesis with only whitespace in between, the decision is taken on
    that token: the [-] is the subtraction operator, and the token
    sequence is the one of the same text without the whitespace. *)
Theorem minus_after_spaces pre ts ws rest :
  tokenize pre = Ok ts ->
  (exists v, last ts = Some (IntToken v)) \/ (exists x, last ts = Some (VarToken x))
    \/ last ts = Some (ParToken false) ->
  forallb is_space ws = true ->
  tokenize (pre ++ ws ++ "-"%char :: rest)
  = (us ← tokenize_from (Some (OpToken "-")) rest; Ok (ts ++ OpToken "-" :: us))
  /\ tokenize (pre ++ ws ++ "-"%char :: rest) = tokenize (pre ++ "-"%char :: rest).
Proof.
  intros H Hlast Hws. unfold tokenize in *.
  assert (Hb : boundary pre ("-"%char :: rest))
    by (apply boundary_non_word; reflexivity).
  assert (Hbw : boundary pre (ws ++ "-"%char :: rest)).
  { destruct ws as [|w ws]; [exact Hb|]. apply boundary_non_word.
    simpl in Hws. apply andb_prop in Hws as [Hw _]. revert Hw. unfold is_space.
    destruct (Ascii.eqb_spec w " ") as [->|]; [reflexivity|].
    destruct (Ascii.eqb_spec w "009") as [->|]; [reflexivity|].
    destruct (Ascii.eqb_spec w "010") as [->|]; [reflexivity|].
    destruct (Ascii.eqb_spec w "013") as [->|]; [reflexivity|discriminate]. }
  rewrite (tokenize_from_app _ _ _ _ H Hbw), (tokenize_from_app _ _ _ _ H Hb).
  rewrite tokenize_from_spaces by exact Hws.
  split; [|reflexivity].
  rewrite tokenize_from_minus; [apply bind_cons_app|].
  unfold last_token.
  destruct Hlast as [[v ->]|[[x ->]| ->]]; reflexivity.
Qed.

Lemma minus_after_spaces_witness :
  tokenize (text "1 - 2") = Ok [IntToken 1; OpToken "-"; IntToken 2]
  /\ tokenize (text "1 - 2") = tokenize (text "1- 2").
Proof.
  exact (minus_after_spaces (text "1") [IntToken 1] (text " ") (text " 2") eq_refl
           (or_introl (ex_intro _ 1 eq_refl)) eq_refl).
Defined.

(** ** The evaluator and the store *)

Lemma same_env_extends env σ env2 σ2 ext ext2 :
  same_env env σ env2 σ2 -> same_env env (σ ++ ext) env2 (σ2 ++ ext2).
Proof.
  intros (H1 & H2 & H). unfold same_env.
  rewrite !length_app, !lookup_total_app_l by assumption.
  repeat split; [lia | lia | exact H].
Qed.

Lemma binary_extends f l r σ :
  (forall σ, exists ext, (l σ).2 = σ ++ ext) ->
  (forall σ, exists ext, (r σ).2 = σ ++ ext) ->
  exists ext, (binary f l r σ).2 = σ ++ ext.
Proof.
  intros Hl Hr. unfold binary.
  destruct (Hl σ) as [ext1 E1]. destruct (l σ) as [[a|e|] σ1]; simpl in E1; subst σ1;
    [|eauto..].
  destruct (Hr (σ ++ ext1)) as [ext2 E2].
  destruct (r (σ ++ ext1)) as [[b|e|] σ2]; simpl in E2; subst σ2;
    exists (ext1 ++ ext2); simpl; rewrite app_assoc; reflexivity.
Qed.

(** [eval] only allocates: the store it leaves is the one it found, with
    new dicts after it. *)
Lemma eval_extends exp : forall env σ, exists ext, (eval exp env σ).2 = σ ++ ext.
Proof.
  induction exp as [l IHl r IHr|l IHl r IHr|e IHe|l IHl r IHr|l IHl r IHr|v
                   |name val IHval body IHbody|name]; intros env σ; simpl;
    try (apply binary_extends; auto).
  - destruct (IHe env σ) as [ext E].
    destruct (eval e env σ) as [[a|x|] σ1]; simpl in *; eauto.
  - exists []. rewrite app_nil_r. reflexivity.
  - destruct (IHval (length σ) (σ ++ [σ !!! env])) as [ext1 E1].
    destruct (eval val (length σ) (σ ++ [σ !!! env])) as [[v|x|] σ1]; simpl in E1;
      subst σ1; [|exists ([σ !!! env] ++ ext1); simpl; rewrite <- app_assoc; reflexivity..].
    assert (Hs : setitem (length σ) name v ((σ ++ [σ !!! env]) ++ ext1)
                 = σ ++ <[name:=v]> (σ !!! env) :: ext1).
    { unfold setitem. rewrite <- app_assoc, alter_app_r_alt by lia.
      rewrite Nat.sub_diag. reflexivity. }
    rewrite Hs.
    destruct (IHbody (length σ) (σ ++ <[name:=v]> (σ !!! env) :: ext1)) as [ext2 E2].
    rewrite E2, <- app_assoc. eauto.
  - destruct ((σ !!! env) !! name); exists []; rewrite app_nil_r; reflexivity.
Qed.

(** No dict that exists when [eval] is called is changed by it. *)
Lemma eval_frame exp env σ a :
  (a < length σ)%nat -> (eval exp env σ).2 !! a = σ !! a.
Proof.
  intros Ha. destruct (eval_extends exp env σ) as [ext ->].
  apply lookup_app_l. exact Ha.
Qed.

Lemma binary_result f l r l2 r2 (R : store -> store -> Prop) σ σ2 :
  (forall σ σ2 ext ext2, R σ σ2 -> R (σ ++ ext) (σ2 ++ ext2)) ->
  (forall σ, exists ext, (l σ).2 = σ ++ ext) ->
  (forall σ, exists ext, (l2 σ).2 = σ ++ ext) ->
  (forall σ σ2, R σ σ2 -> (l σ).1 = (l2 σ2).1) ->
  (forall σ σ2, R σ σ2 -> (r σ).1 = (r2 σ2).1) ->
  R σ σ2 -> (binary f l r σ).1 = (binary f l2 r2 σ2).1.
Proof.
  intros HR Hl Hl2 Hlr Hrr H. unfold binary.
  pose proof (Hlr _ _ H) as E.
  destruct (Hl σ) as [ext1 E1]. destruct (Hl2 σ2) as [ext2 E2].
  destruct (l σ) as [[a|e|] σ1], (l2 σ2) as [[a2|e2|] σ1']; simpl in *;
    try congruence.
  subst σ1 σ1'. inversion E; subst a2.
  pose proof (Hrr _ _ (HR _ _ ext1 ext2 H)) as E'.
  destruct (r (σ ++ ext1)) as [[b|e|] σ3], (r2 (σ2 ++ ext2)) as [[b2|e2|] σ3'];
    simpl in *; congruence.
Qed.

(** The result of [eval] depends on the bindings of its environment
    only, not on where the dict lives. *)
Lemma eval_result exp : forall env σ env2 σ2,
  same_env env σ env2 σ2 -> (eval exp env σ).1 = (eval exp env2 σ2).1.
Proof.
  induction exp as [l IHl r IHr|l IHl r IHr|e IHe|l IHl r IHr|l IHl r IHr|v
                   |name val IHval body IHbody|name]; intros env σ env2 σ2 H; simpl;
    try (apply (binary_result _ _ _ _ _ (fun σ σ2 => same_env env σ env2 σ2));
         auto using eval_extends, same_env_extends).
  - pose proof (IHe _ _ _ _ H) as E.
    destruct (eval e env σ) as [[a|x|] σ1], (eval e env2 σ2) as [[a2|x2|] σ1'];
      simpl in *; congruence.
  - reflexivity.
  - destruct H as (H1 & H2 & H).
    assert (Hc : same_env (length σ) (σ ++ [σ !!! env]) (length σ2) (σ2 ++ [σ2 !!! env2])).
    { unfold same_env. rewrite !length_app, !list_lookup_total_middle by reflexivity.
      simpl. repeat split; [lia | lia | exact H]. }
    pose proof (IHval _ _ _ _ Hc) as E.
    destruct (eval_extends val (length σ) (σ ++ [σ !!! env])) as [ext1 E1].
    destruct (eval_extends val (length σ2) (σ2 ++ [σ2 !!! env2])) as [ext2 E2].
    destruct (eval val (length σ) (σ ++ [σ !!! env])) as [[v|x|] σ1],
             (eval val (length σ2) (σ2 ++ [σ2 !!! env2])) as [[v2|x2|] σ1'];
      simpl in *; try congruence.
    inversion E; subst v2 σ1 σ1'. apply IHbody.
    destruct (same_env_extends _ _ _ _ ext1 ext2 Hc) as (L1 & L2 & L).
    unfold same_env, setitem. rewrite !length_alter.
    rewrite !list_lookup_total_alter_eq by assumption.
    repeat split; [exact L1 | exact L2 | rewrite L; reflexivity].
  - destruct H as (_ & _ & ->). destruct ((σ2 !!! env2) !! name); reflexivity.
Qed.

Lemma binary_terminates f l r σ :
  (forall a b, f a b <> OutOfFuel) ->
  (forall σ, (l σ).1 <> OutOfFuel) -> (forall σ, (r σ).1 <> OutOfFuel) ->
  (binary f l r σ).1 <> OutOfFuel.
Proof.
  intros Hf Hl Hr. unfold binary.
  pose proof (Hl σ) as E. destruct (l σ) as [[a|e|] σ1]; simpl in *; try congruence.
  pose proof (Hr σ1) as E'.
  destruct (r σ1) as [[b|e|] σ2]; simpl in *; [apply Hf | congruence..].
Qed.

(** [eval] has no recursion counter: it never gives [OutOfFuel]. *)
Lemma eval_terminates exp : forall env σ, (eval exp env σ).1 <> OutOfFuel.
Proof.
  induction exp as [l IHl r IHr|l IHl r IHr|e IHe|l IHl r IHr|l IHl r IHr|v
                   |name val IHval body IHbody|name]; intros env σ; simpl;
    try (apply binary_terminates;
           [intros a b; try discriminate; unfold floordiv; destruct (b =? 0); discriminate
           | auto | auto]).
  - pose proof (IHe env σ) as E.
    destruct (eval e env σ) as [[a|x|] σ1]; simpl in *; congruence.
  - discriminate.
  - pose proof (IHval (length σ) (σ ++ [σ !!! env])) as E.
    destruct (eval val (length σ) (σ ++ [σ !!! env])) as [[v|x|] σ1]; simpl in *;
      [apply IHbody | congruence..].
  - destruct ((σ !!! env) !! name); discriminate.
Qed.

(** ** Assignment *)

(** C6. Evaluating an [Assign] leaves every dict that existed at the
    call as it was, the caller's environment among them, so the new
    binding is not visible after the call; the value expression is
    evaluated under the bindings [d] of the current environment, and the
    body under [d] with the one binding added or overwritten. *)
Theorem assign_scoping name val body env (σ : store) :
  (env < length σ)%nat ->
  let d := σ !!! env in
  (forall a, (a < length σ)%nat ->
     (eval (Assign name val body) env σ).2 !! a = σ !! a)
  /\ (eval (Assign name val body) env σ).1
     = match value_in val d with
       | Ok v => value_in body (<[name:=v]> d)
       | Raise e => Raise e
       | OutOfFuel => OutOfFuel
       end.
Proof.
  intros Henv d. split; [intros a Ha; apply eval_frame; exact Ha|].
  assert (Hc : same_env (length σ) (σ ++ [d]) 0%nat [d]).
  { unfold same_env. rewrite length_app, list_lookup_total_middle by reflexivity.
    simpl. repeat split; lia. }
  unfold value_in. rewrite <- (eval_result val _ _ _ _ Hc).
  simpl. fold d.
  destruct (eval_extends val (length σ) (σ ++ [d])) as [ext E].
  destruct (eval val (length σ) (σ ++ [d])) as [[v|x|] σ1]; simpl in *;
    [|reflexivity..].
  subst σ1. apply eval_result.
  destruct (same_env_extends _ _ _ _ ext [] Hc) as (L1 & _ & L).
  unfold same_env, setitem. rewrite length_alter.
  rewrite list_lookup_total_alter_eq by assumption.
  repeat split; [exact L1 | simpl; lia | rewrite L; reflexivity].
Qed.

Lemma assign_scoping_witness :
  (eval (Assign "x" (Int 3) (Sum (Var "x") (Var "y"))) 0%nat [{["y" := 2]}]).1
  = value_in (Sum (Var "x") (Var "y")) (<["x" := 3]> {["y" := 2]}).
Proof.
  exact (proj2 (assign_scoping "x" (Int 3) (Sum (Var "x") (Var "y")) 0%nat
                  [{["y" := 2]}] (le_n 1))).
Defined.

(** ** Division by zero *)

(** C4. A [Quotient] whose right operand evaluates to zero raises
    [ZeroDivisionError]: the evaluation gives an exception, not a value;
    [1/0] run through the whole pipeline ends with that exception. *)
Theorem division_by_zero :
  (forall l r env (σ σ1 σ2 : store) a,
     eval l env σ = (Ok a, σ1) -> eval r env σ1 = (Ok 0, σ2) ->
     eval (Quotient l r) env σ = (Raise ZeroDivisionError, σ2))
  /\ run_line "1/0" = Raise ZeroDivisionError.
Proof.
  split; [|vm_compute; reflexivity].
  intros l r env σ σ1 σ2 a Hl Hr. simpl. unfold binary. rewrite Hl, Hr. reflexivity.
Qed.

Lemma division_by_zero_witness :
  eval (Quotient (Int 1) (Int 0)) 0%nat [∅] = (Raise ZeroDivisionError, [∅]).
Proof.
  exact (proj1 division_by_zero (Int 1) (Int 0) 0%nat [∅] [∅] [∅] 1 eq_refl eq_refl).
Defined.

(** ** The parser's recursion *)

Lemma pop_terminates {A} (l : list A) : pop l <> OutOfFuel.
Proof. unfold pop. destruct (last l); discriminate. Qed.

Lemma op_lookup_terminates op : op_lookup op <> OutOfFuel.
Proof. unfold op_lookup. repeat (destruct (String.eqb _ _); [discriminate|]). discriminate. Qed.

Lemma op_precedence_terminates op : op_precedence op <> OutOfFuel.
Proof.
  unfold op_precedence. repeat (destruct (String.eqb _ _); [discriminate|]). discriminate.
Qed.

Lemma handle_top_terminates op st : handle_top op st <> OutOfFuel.
Proof.
  unfold handle_top. destruct st as [op_stk exp_stk].
  apply bind_terminates; [apply pop_terminates | intros [top op_stk']].
  apply bind_terminates; [apply pop_terminates | intros [rhs exp_stk']].
  apply bind_terminates; [apply pop_terminates | intros [lhs exp_stk'']].
  apply bind_terminates; [apply op_lookup_terminates | intros node].
  destruct op as [[|c op]|]; discriminate.
Qed.

Lemma drain_rounds_terminates n : forall st, drain_rounds n st <> OutOfFuel.
Proof.
  induction n as [|n IH]; intros st; simpl; [discriminate|].
  apply bind_terminates; [apply handle_top_terminates | exact IH].
Qed.

Lemma finish_terminates st pos : finish st pos <> OutOfFuel.
Proof.
  unfold finish, drain.
  apply bind_terminates; [apply drain_rounds_terminates | intros [ops [|e exps]]];
    discriminate.
Qed.

Lemma push_operator_terminates op st : push_operator op st <> OutOfFuel.
Proof.
  unfold push_operator. destruct st as [op_stk exp_stk].
  destruct (last op_stk); [|discriminate].
  apply bind_terminates; [apply op_precedence_terminates | intros p].
  apply bind_terminates; [apply op_precedence_terminates | intros q].
  destruct (p <=? q)%nat; [apply handle_top_terminates | discriminate].
Qed.

Lemma parser_loop_terminates fuel : forall tokens nested_level pos st,
  (length tokens - pos < fuel)%nat ->
  parser_loop fuel tokens nested_level pos st <> OutOfFuel.
Proof.
  induction fuel as [|fuel IH]; intros tokens nested_level pos st Hfuel; [lia|].
  cbn [parser_loop].
  destruct (tokens !! pos) as [t|] eqn:Et; [|apply finish_terminates].
  apply lookup_lt_Some in Et.
  assert (Hsub : forall n p, (length (drop (pos + 1 + n) tokens) - p < fuel)%nat)
    by (intros n p; rewrite length_drop; lia).
  destruct t as [x|v|op|[|]|].
  - apply IH. lia.
  - apply IH. lia.
  - destruct (String.eqb op "=").
    + destruct (pop st.2) as [[[] exp_stk]| |]; try discriminate.
      apply bind_terminates; [apply IH; rewrite length_drop; lia | intros [val k]].
      apply bind_terminates; [apply IH, Hsub | intros [body k']].
      apply finish_terminates.
    + apply bind_terminates; [apply push_operator_terminates | intros st'].
      apply IH. lia.
  - apply bind_terminates; [apply IH; rewrite length_drop; lia | intros [exp k]].
    apply IH. lia.
  - destruct (nested_level =? 0)%nat; [discriminate | apply finish_terminates].
  - apply finish_terminates.
Qed.

(** The parser returns or raises on every token list. *)
Lemma parser_terminates tokens nested_level : parser tokens nested_level <> OutOfFuel.
Proof. unfold parser. apply parser_loop_terminates. lia. Qed.

(** The pipeline returns or raises on every line. *)
Lemma interpret_terminates user_code env σ : (interpret user_code env σ).1 <> OutOfFuel.
Proof.
  unfold interpret, tokenize, tokenize_from.
  pose proof (lexer_terminates user_code None) as Hl.
  destruct (lexer user_code None) as [tokens|e|]; simpl; [|discriminate|congruence].
  pose proof (parser_terminates (rev tokens) 0) as Hp.
  destruct (parser (rev tokens) 0) as [[ast k]|e|]; simpl; [|discriminate|congruence].
  apply eval_terminates.
Qed.

(** ** The parser's exceptions *)

Lemma bind_Raise_inv {A B} (m : result A) (k : A -> result B) e :
  m ≫= k = Raise e -> m = Raise e \/ exists a, m = Ok a /\ k a = Raise e.
Proof. destruct m; simpl; intros H; [eauto | inversion H; auto | discriminate]. Qed.

Lemma pop_raises {A} (l : list A) e : pop l = Raise e -> parser_error e.
Proof. unfold pop. destruct (last l); intros H; inversion H. left. reflexivity. Qed.

Lemma op_lookup_raises op e : op_lookup op = Raise e -> parser_error e.
Proof.
  unfold op_lookup. repeat (destruct (String.eqb _ _); [discriminate|]).
  intros H; inversion H. right; right; left. reflexivity.
Qed.

Lemma op_precedence_raises op e : op_precedence op = Raise e -> parser_error e.
Proof.
  unfold op_precedence. repeat (destruct (String.eqb _ _); [discriminate|]).
  intros H; inversion H. right; left. eauto.
Qed.

Lemma handle_top_raises op st e : handle_top op st = Raise e -> parser_error e.
Proof.
  unfold handle_top. destruct st as [op_stk exp_stk]. intros H.
  apply bind_Raise_inv in H as [H|([top op_stk'] & _ & H)]; [exact (pop_raises _ _ H)|].
  apply bind_Raise_inv in H as [H|([rhs exp_stk'] & _ & H)]; [exact (pop_raises _ _ H)|].
  apply bind_Raise_inv in H as [H|([lhs exp_stk''] & _ & H)]; [exact (pop_raises _ _ H)|].
  apply bind_Raise_inv in H as [H|(node & _ & H)]; [exact (op_lookup_raises _ _ H)|].
  destruct op as [[|c op]|]; discriminate H.
Qed.

Lemma drain_rounds_raises n : forall st e, drain_rounds n st = Raise e -> parser_error e.
Proof.
  induction n as [|n IH]; intros st e H; simpl in H; [discriminate H|].
  apply bind_Raise_inv in H as [H|(st' & _ & H)];
    [exact (handle_top_raises _ _ _ H) | exact (IH _ _ H)].
Qed.

Lemma finish_raises st pos e : finish st pos = Raise e -> parser_error e.
Proof.
  unfold finish, drain. intros H.
  apply bind_Raise_inv in H as [H|([ops exps] & _ & H)];
    [exact (drain_rounds_raises _ _ _ H)|].
  destruct exps; inversion H. left. reflexivity.
Qed.

Lemma push_operator_raises op st e : push_operator op st = Raise e -> parser_error e.
Proof.
  unfold push_operator. destruct st as [op_stk exp_stk].
  destruct (last op_stk); [|discriminate]. intros H.
  apply bind_Raise_inv in H as [H|(p & _ & H)]; [exact (op_precedence_raises _ _ H)|].
  apply bind_Raise_inv in H as [H|(q & _ & H)]; [exact (op_precedence_raises _ _ H)|].
  destruct (p <=? q)%nat; [exact (handle_top_raises _ _ _ H) | discriminate H].
Qed.

Lemma parser_loop_raises fuel : forall tokens nested_level pos st e,
  parser_loop fuel tokens nested_level pos st = Raise e -> parser_error e.
Proof.
  induction fuel as [|fuel IH]; intros tokens nested_level pos st e H; [discriminate H|].
  cbn [parser_loop] in H.
  destruct (tokens !! pos) as [[x|v|op|[|]|]|]; eauto using finish_raises.
  - destruct (String.eqb op "=").
    + destruct (pop st.2) as [[[] exp_stk]| |] eqn:Ep;
        try (inversion H; right; right; right; left; reflexivity).
      apply bind_Raise_inv in H as [H|([val k] & _ & H)]; [eauto|].
      apply bind_Raise_inv in H as [H|([body k'] & _ & H)]; [eauto|].
      exact (finish_raises _ _ _ H).
    + apply bind_Raise_inv in H as [H|(st' & _ & H)];
        [exact (push_operator_raises _ _ _ H) | eauto].
  - apply bind_Raise_inv in H as [H|([exp k] & _ & H)]; eauto.
  - destruct (nested_level =? 0)%nat; [|exact (finish_raises _ _ _ H)].
    inversion H. right; right; right; right. reflexivity.
Qed.

(** No token list makes the parser raise the generic syntax error. *)
Lemma parser_never_generic_error tokens nested_level :
  parser tokens nested_level <> Raise (SyntaxError "Syntax Error").
Proof.
  intros H. apply parser_loop_raises in H.
  destruct H as [H|[[op H]|[H|[H|H]]]]; discriminate H.
Qed.

(** A close parenthesis met at the outermost level is the "unbalanced
    parentheses" error, whatever the stacks hold. *)
Lemma close_paren_outermost fuel tokens pos st :
  tokens !! pos = Some (ParToken false) ->
  parser_loop (S fuel) tokens 0 pos st = Raise (SyntaxError "Unbalanced parentheses").
Proof. intros H. cbn [parser_loop]. rewrite H. reflexivity. Qed.

(** ** Unary minus before a name or a parenthesis *)

Lemma name_start_class c :
  isalpha c || is_underscore c = true ->
  is_digit c = false /\ Ascii.eqb c "-" = false.
Proof.
  destruct c as [[|] [|] [|] [|] [|] [|] [|] [|]]; vm_compute; intros H;
    (discriminate H || (split; reflexivity)).
Qed.

Lemma lexer_dispatch_flag c code prev q :
  isalpha c || is_underscore c = true \/ c = "("%char ->
  lexer_dispatch lexer false (c :: code) prev
  = tokens ← lexer_dispatch lexer true (c :: code) q;
    Ok (tokens ++ [OpToken "*"; IntToken (-1)]).
Proof.
  intros [Hc| ->].
  - destruct (name_start_class c Hc) as [Hd _].
    unfold lexer_dispatch. rewrite Hd, Hc. cbv zeta.
    destruct (lexer _ _); reflexivity.
  - unfold lexer_dispatch. simpl. destruct (lexer code _); reflexivity.
Qed.

(** The tokens of a sign-position [-] before a name or an open
    parenthesis: [-1], [*], then the tokens of the text from the operand
    on (which do not depend on the token before it). *)
Lemma tokenize_from_desugar prev c code q :
  sign_position prev = true ->
  isalpha c || is_underscore c = true \/ c = "("%char ->
  tokenize_from prev ("-"%char :: c :: code)
  = ts ← tokenize_from q (c :: code); Ok (IntToken (-1) :: OpToken "*" :: ts).
Proof.
  intros Hs Hc. unfold tokenize_from.
  rewrite (lexer_unfold ("-"%char :: c :: code)), (lexer_unfold (c :: code)).
  unfold lexer_body. rewrite Hs. simpl andb. cbv iota.
  assert (Hm : Ascii.eqb c "-" = false).
  { destruct Hc as [Hc| ->]; [apply (name_start_class c Hc) | reflexivity]. }
  rewrite Hm. simpl andb. cbv iota.
  rewrite (lexer_dispatch_flag c code prev q Hc).
  destruct (lexer_dispatch lexer true (c :: code) q); simpl; [|reflexivity..].
  rewrite rev_app_distr. reflexivity.
Qed.

Lemma tokenize_from_times prev code :
  tokenize_from prev ("*"%char :: code)
  = us ← tokenize_from (Some (OpToken "*")) code; Ok (OpToken "*" :: us).
Proof.
  unfold tokenize_from. rewrite lexer_unfold. unfold lexer_body, lexer_dispatch. simpl.
  destruct (lexer code _); simpl; [|reflexivity..].
  rewrite rev_app_distr. reflexivity.
Qed.

Lemma tokenize_minus_one_times prev c code :
  sign_position prev = true ->
  isalpha c || is_underscore c = true \/ c = "("%char ->
  tokenize_from prev ("-"%char :: c :: code)
  = tokenize_from prev (text "-1*" ++ c :: code).
Proof.
  intros Hs Hc.
  rewrite (tokenize_from_desugar prev c code (Some (OpToken "*")) Hs Hc).
  change (text "-1*" ++ c :: code) with ("-"%char :: text "1" ++ "*"%char :: c :: code).
  rewrite tokenize_from_sign; [|exact Hs|discriminate|reflexivity|reflexivity].
  rewrite tokenize_from_times.
  destruct (tokenize_from (Some (OpToken "*")) (c :: code)); reflexivity.
Qed.

Lemma parse_minus_x :
  (tokens ← tokenize (text "-x"); parser tokens 0)
  = Ok (Product (Int (-1)) (Var "x"), 3%nat).
Proof. vm_compute. reflexivity. Qed.

(** C8. A sign-position [-] before a name or an open parenthesis is
    tokenized as [-1], [*] and then the operand's tokens, which is the
    token sequence of the same text with [-1*] for the [-]; so [-x] and
    [-1*x] give the same result under every environment ([-1 * v] when
    [x] is bound to [v], the unbound-variable error otherwise), and
    [-(1+2)] and [-1*(1+2)] both give [-3]. *)
Theorem unary_minus_desugaring :
  (forall prev c code q,
     sign_position prev = true ->
     isalpha c || is_underscore c = true \/ c = "("%char ->
     tokenize_from prev ("-"%char :: c :: code)
     = (ts ← tokenize_from q (c :: code); Ok (IntToken (-1) :: OpToken "*" :: ts))
     /\ tokenize_from prev ("-"%char :: c :: code)
        = tokenize_from prev (text "-1*" ++ c :: code))
  /\ (forall c code env (σ : store),
        isalpha c || is_underscore c = true \/ c = "("%char ->
        interpret ("-"%char :: c :: code) env σ
        = interpret (text "-1*" ++ c :: code) env σ)
  /\ (forall env (σ : store),
        interpret (text "-x") env σ = interpret (text "-1*x") env σ)
  /\ (forall d : gmap string Z,
        (interpret (text "-x") 0 [d]).1
        = match d !! "x" with
          | Some v => Ok (-1 * v)
          | None => Raise (RuntimeError "Unbound variable" "x")
          end)
  /\ run_line "-(1+2)" = Ok (-3)
  /\ run_line "-1*(1+2)" = Ok (-3).
Proof.
  assert (Hrun : forall c code env (σ : store),
            isalpha c || is_underscore c = true \/ c = "("%char ->
            interpret ("-"%char :: c :: code) env σ
            = interpret (text "-1*" ++ c :: code) env σ).
  { intros c code env σ Hc. unfold interpret, tokenize.
    rewrite (tokenize_minus_one_times None c code eq_refl Hc). reflexivity. }
  split; [|split; [exact Hrun|split; [|split; [|split; vm_compute; reflexivity]]]].
  - intros prev c code q Hs Hc.
    split; [apply tokenize_from_desugar | apply tokenize_minus_one_times]; assumption.
  - intros env σ. apply (Hrun "x"%char []). left. reflexivity.
  - intros d. unfold interpret. rewrite parse_minus_x. simpl. unfold binary.
    change ([d; d] !!! 1%nat) with d.
    destruct (d !! "x"); reflexivity.
Qed.

Lemma unary_minus_desugaring_witness :
  tokenize (text "-x") = Ok [IntToken (-1); OpToken "*"; VarToken "x"]
  /\ interpret (text "-(1+2)") 0 [∅] = interpret (text "-1*(1+2)") 0 [∅].
Proof.
  split.
  - exact (proj1 (proj1 unary_minus_desugaring None "x"%char [] None eq_refl
                    (or_introl eq_refl))).
  - exact (proj1 (proj2 unary_minus_desugaring) "("%char (text "1+2)") 0%nat [∅]
             (or_intror eq_refl)).
Defined.

(** ** Runs of the pipeline *)

(** C7. [x=5;x] gives 5, and [x=5;y=(x=3;x+2)+x;y] gives 10: the inner
    [x=3] holds in its own body only. *)
Theorem assignment_shadowing :
  run_line "x=5;x" = Ok 5
  /\ (tokens ← tokenize (text "x=5;y=(x=3;x+2)+x;y"); parser tokens 0)
     = Ok (Assign "x" (Int 5)
             (Assign "y"
                (Sum (Assign "x" (Int 3) (Sum (Var "x") (Int 2))) (Var "x"))
                (Var "y")), 19%nat)
  /\ run_line "x=5;y=(x=3;x+2)+x;y" = Ok 10.
Proof. repeat split; vm_compute; reflexivity. Qed.

(** C1, at the input [8-2*3+1]. On reading [+] the parser combines the
    pending [*] only and leaves the [-] below it on the stack, so the
    line parses as [8 - (2*3 + 1)] and gives 1, where precedence and left
    associativity give [(8 - 2*3) + 1 = 3]. *)
Theorem drain_once_breaks_left_associativity :
  (tokens ← tokenize (text "8-2*3+1"); parser tokens 0)
  = Ok (Difference (Int 8) (Sum (Product (Int 2) (Int 3)) (Int 1)), 7%nat)
  /\ run_line "8-2*3+1" = Ok 1
  /\ run_line "8-2*3+1" <> Ok ((8 - 2 * 3) + 1).
Proof. repeat split; try (vm_compute; reflexivity). vm_compute. discriminate. Qed.

(** C3, at the input [(1+2]. The nested parse reaches the end of the
    tokens without a close parenthesis and returns as if at a terminator:
    no exception, the line gives 3.  A lone [)] does raise the
    "unbalanced parentheses" error. *)
Theorem unclosed_parenthesis_accepted :
  tokenize (text "(1+2") = Ok [ParToken true; IntToken 1; OpToken "+"; IntToken 2]
  /\ parser [ParToken true; IntToken 1; OpToken "+"; IntToken 2] 0
     = Ok (Sum (Int 1) (Int 2), 4%nat)
  /\ run_line "(1+2" = Ok 3
  /\ run_line ")" = Raise (SyntaxError "Unbalanced parentheses").
Proof. repeat split; vm_compute; reflexivity. Qed.

(** C5, at the inputs [1+], [1 2] and [;]. An operator without its right
    operand and an empty statement end in [IndexError] (a [pop] of, or
    [exp_stk[0]] on, an empty list), and two operands without an operator
    parse without any exception, to the first operand; none raises a
    syntax error. *)
Theorem malformed_input_no_syntax_error :
  parser [IntToken 1; OpToken "+"] 0 = Raise IndexError
  /\ run_line "1+" = Raise IndexError
  /\ parser [IntToken 1; IntToken 2] 0 = Ok (Int 1, 2%nat)
  /\ run_line "1 2" = Ok 1
  /\ parser [EndToken] 0 = Raise IndexError
  /\ run_line ";" = Raise IndexError.
Proof. repeat split; vm_compute; reflexivity. Qed.

(** * Further properties *)

(** ** The tokenizer's failures *)

Lemma run_app_stop p pre c rest : p c = false -> run p (pre ++ c :: rest) = run p pre.
Proof.
  intros Hc. induction pre as [|a pre IH]; simpl; [rewrite Hc; reflexivity|].
  rewrite IH. reflexivity.
Qed.

Lemma In_drop {A} (x : A) n l : In x (drop n l) -> In x l.
Proof.
  revert n. induction l as [|a l IH]; intros [|n] H; simpl in *; auto.
  right. exact (IH n H).
Qed.

Lemma lexer_error_drop n code e : lexer_error (drop n code) e -> lexer_error code e.
Proof. intros [H|(c & Hin & H)]; [left; exact H | right; eauto using In_drop]. Qed.

Lemma lexer_dispatch_raises b code prev e :
  (forall code' p e', (length code' < length code)%nat ->
     lexer code' p = Raise e' -> lexer_error code' e') ->
  lexer_dispatch lexer b code prev = Raise e -> lexer_error code e.
Proof.
  intros IH H. unfold lexer_dispatch in H.
  destruct code as [|c0 tl0]; [inversion H; left; reflexivity|]. cbv zeta in H.
  assert (Htl : forall p e', lexer tl0 p = Raise e' -> lexer_error (c0 :: tl0) e').
  { intros p e' H'. apply (lexer_error_drop 1). simpl.
    apply (IH tl0 p); [simpl; lia | exact H']. }
  destruct (is_digit c0) eqn:Hd.
  { apply bind_Raise_inv in H as [H|(rest & _ & H)]; [|discriminate H].
    eapply lexer_error_drop, IH; [apply drop_run_shorter; exact Hd | exact H]. }
  destruct (isalpha c0 || is_underscore c0) eqn:Ha.
  { apply bind_Raise_inv in H as [H|(rest & _ & H)]; [|discriminate H].
    eapply lexer_error_drop, IH;
      [apply drop_run_shorter, isalpha_word; exact Ha | exact H]. }
  destruct (is_operator c0) eqn:Ho.
  { apply bind_Raise_inv in H as [H|(rest & _ & H)]; [eauto | discriminate H]. }
  destruct (is_paren c0) eqn:Hp.
  { apply bind_Raise_inv in H as [H|(rest & _ & H)]; [eauto | discriminate H]. }
  destruct (is_space c0) eqn:Hw; [eauto|].
  destruct (Ascii.eqb c0 ";") eqn:Hs.
  { apply bind_Raise_inv in H as [H|(rest & _ & H)]; [eauto | discriminate H]. }
  inversion H. right. exists c0. repeat split; [left; reflexivity|].
  unfold known_char. rewrite Hd, Ha, Ho, Hp, Hw, Hs. reflexivity.
Qed.

Lemma lexer_raise_cases code : forall prev e,
  lexer code prev = Raise e -> lexer_error code e.
Proof.
  induction code as [code IH] using (induction_ltof1 _ (@length ascii)).
  unfold ltof in IH. intros prev e H.
  rewrite lexer_unfold in H. unfold lexer_body in H.
  destruct code as [|c tl]; [discriminate H|].
  destruct (Ascii.eqb c "-" && sign_position prev).
  - apply (lexer_error_drop 1). simpl.
    apply (lexer_dispatch_raises false tl prev); [|exact H].
    intros code' p e' Hlt. apply IH. simpl. lia.
  - apply (lexer_dispatch_raises true (c :: tl) prev); [|exact H].
    intros code' p e' Hlt. apply IH. exact Hlt.
Qed.

(** X1. The tokenizer raises nothing but [IndexError] and the "unknown
    token" syntax error, and the latter names a character of the text
    that no branch accepts. *)
Theorem lexer_raises code : forall prev e,
  lexer code prev = Raise e -> lexer_error code e.
Proof. apply lexer_raise_cases. Qed.

Lemma lexer_raises_witness :
  lexer_error (text "2 * (x # 1)") (SyntaxError "Unknown token #").
Proof.
  exact (lexer_raises (text "2 * (x # 1)") None (SyntaxError "Unknown token #") eq_refl).
Defined.

Lemma unknown_char_class c :
  known_char c = false ->
  is_digit c = false /\ isalpha c || is_underscore c = false /\ is_operator c = false
  /\ is_paren c = false /\ is_space c = false /\ Ascii.eqb c ";" = false
  /\ Ascii.eqb c "-" = false.
Proof.
  destruct c as [[|] [|] [|] [|] [|] [|] [|] [|]]; vm_compute; intros H;
    (discriminate H || (repeat split; reflexivity)).
Qed.

Lemma lexer_dispatch_unknown b c rest prev :
  known_char c = false ->
  lexer_dispatch lexer b (c :: rest) prev = Raise (SyntaxError ("Unknown token " ++ str1 c)).
Proof.
  intros Hc. destruct (unknown_char_class c Hc) as (Hd & Ha & Ho & Hp & Hw & Hs & _).
  unfold lexer_dispatch. rewrite Hd, Ha, Ho, Hp, Hw, Hs. reflexivity.
Qed.

Lemma lexer_dispatch_first_unknown b code prev c rest :
  (forall pre' p, (length pre' < length code)%nat -> forallb known_char pre' = true ->
     lexer (pre' ++ c :: rest) p = Raise (SyntaxError ("Unknown token " ++ str1 c))) ->
  forallb known_char code = true -> known_char c = false -> word_char c = false ->
  lexer_dispatch lexer b (code ++ c :: rest) prev
  = Raise (SyntaxError ("Unknown token " ++ str1 c)).
Proof.
  intros IH Hcode Hc Hcw.
  destruct code as [|c0 tl0]; [apply lexer_dispatch_unknown; exact Hc|].
  destruct (unknown_char_class c Hc) as (Hcd & _).
  assert (Hdrop : forall n, forallb known_char (drop n (c0 :: tl0)) = true).
  { intros n. apply forallb_forall. intros x Hx.
    eapply forallb_forall in Hcode; [exact Hcode | exact (In_drop _ _ _ Hx)]. }
  rewrite <- app_comm_cons. unfold lexer_dispatch.
  rewrite (app_comm_cons tl0 (c :: rest) c0).
  destruct (is_digit c0) eqn:Hd.
  { rewrite run_app_stop by exact Hcd.
    rewrite drop_app_le by apply run_length_le.
    rewrite IH; [reflexivity | apply drop_run_shorter; exact Hd | apply Hdrop]. }
  destruct (isalpha c0 || is_underscore c0) eqn:Ha.
  { rewrite run_app_stop by exact Hcw.
    rewrite drop_app_le by apply run_length_le.
    rewrite IH; [reflexivity | apply drop_run_shorter, isalpha_word; exact Ha
                | apply Hdrop]. }
  assert (Htl : forall p, lexer (tl0 ++ c :: rest) p
                          = Raise (SyntaxError ("Unknown token " ++ str1 c))).
  { intros p. apply IH; [simpl; lia | exact (Hdrop 1%nat)]. }
  simpl in Hcode. apply andb_prop in Hcode as [Hc0 _].
  unfold known_char in Hc0. rewrite Hd, Ha in Hc0. simpl in Hc0.
  destruct (is_operator c0); [rewrite Htl; reflexivity|].
  destruct (is_paren c0); [rewrite Htl; reflexivity|].
  destruct (is_space c0); [apply Htl|].
  destruct (Ascii.eqb c0 ";"); [rewrite Htl; reflexivity | discriminate Hc0].
Qed.

(** X2. A text is not tokenized at all once it has a character that
    the tokenizer accepts neither at the start of a token nor inside a
    name: when every character before the first such character is one
    that can start a token, the tokenizer raises the "unknown token"
    syntax error naming it, whatever follows. *)
Theorem lexer_first_unknown pre : forall prev c rest,
  forallb known_char pre = true -> known_char c = false -> word_char c = false ->
  lexer (pre ++ c :: rest) prev = Raise (SyntaxError ("Unknown token " ++ str1 c)).
Proof.
  induction pre as [pre IH] using (induction_ltof1 _ (@length ascii)).
  unfold ltof in IH. intros prev c rest Hpre Hc Hcw.
  destruct (unknown_char_class c Hc) as (_ & _ & _ & _ & _ & _ & Hm).
  rewrite lexer_unfold. unfold lexer_body.
  destruct pre as [|a tl].
  { simpl app. cbv iota. rewrite Hm. simpl andb. cbv iota.
    apply lexer_dispatch_unknown. exact Hc. }
  rewrite <- app_comm_cons.
  pose proof Hpre as Htl. simpl in Htl. apply andb_prop in Htl as [_ Htl].
  destruct (Ascii.eqb a "-" && sign_position prev).
  - apply lexer_dispatch_first_unknown; [|exact Htl|exact Hc|exact Hcw].
    intros pre' p Hlt Hk. apply IH; [simpl; lia | exact Hk | exact Hc | exact Hcw].
  - rewrite app_comm_cons.
    apply lexer_dispatch_first_unknown; [|exact Hpre|exact Hc|exact Hcw].
    intros pre' p Hlt Hk. apply IH; [exact Hlt | exact Hk | exact Hc | exact Hcw].
Qed.

Lemma lexer_first_unknown_witness :
  lexer (text "x = 3 $ 4 ?") None = Raise (SyntaxError "Unknown token $").
Proof.
  exact (lexer_first_unknown (text "x = 3 ") None "$"%char (text " 4 ?")
           eq_refl eq_refl eq_refl).
Defined.

(** X3. A [-] at the very end of the text.  Where the text [pre] before
    it tokenizes on its own, to the tokens [ts]: the tokenizer fails with
    [IndexError], on [code[0]] of the empty rest, when [ts] is empty or
    ends with an operator, an open parenthesis or a terminator, and the
    [-] is the subtraction operator when [ts] ends with a literal, a name
    or a close parenthesis.  Where such a [pre] with a sign position at
    its end is followed by two [-]: the first is consumed as a sign and
    lost, and the last is the subtraction operator. *)
Theorem trailing_minus pre ts :
  tokenize pre = Ok ts ->
  tokenize (pre ++ ["-"%char])
  = (if sign_position (last ts) then Raise IndexError else Ok (ts ++ [OpToken "-"]))
  /\ (sign_position (last ts) = true ->
      tokenize (pre ++ ["-"%char; "-"%char]) = Ok (ts ++ [OpToken "-"])).
Proof.
  intros H. unfold tokenize in *.
  assert (E : last_token None ts = last ts)
    by (unfold last_token; destruct (last ts); reflexivity).
  split.
  - rewrite (tokenize_from_app _ _ _ _ H) by (apply boundary_non_word; reflexivity).
    rewrite E. destruct (sign_position (last ts)) eqn:Hs.
    + unfold tokenize_from. rewrite lexer_unfold. unfold lexer_body. rewrite Hs.
      reflexivity.
    + rewrite tokenize_from_minus by exact Hs. reflexivity.
  - intros Hs.
    rewrite (tokenize_from_app _ _ _ _ H) by (apply boundary_non_word; reflexivity).
    rewrite E. unfold tokenize_from. rewrite lexer_unfold. unfold lexer_body.
    rewrite Hs. reflexivity.
Qed.

Lemma trailing_minus_witness :
  tokenize (text "3*-") = Raise IndexError
  /\ tokenize (text "3-") = Ok [IntToken 3; OpToken "-"]
  /\ tokenize (text "3*--") = Ok [IntToken 3; OpToken "*"; OpToken "-"].
Proof.
  split; [|split].
  - exact (proj1 (trailing_minus (text "3*") [IntToken 3; OpToken "*"] eq_refl)).
  - exact (proj1 (trailing_minus (text "3") [IntToken 3] eq_refl)).
  - exact (proj2 (trailing_minus (text "3*") [IntToken 3; OpToken "*"] eq_refl) eq_refl).
Defined.

Lemma space_not_word w : is_space w = true -> word_char w = false.
Proof.
  unfold is_space.
  destruct (Ascii.eqb_spec w " ") as [->|]; [reflexivity|].
  destruct (Ascii.eqb_spec w "009") as [->|]; [reflexivity|].
  destruct (Ascii.eqb_spec w "010") as [->|]; [reflexivity|].
  destruct (Ascii.eqb_spec w "013") as [->|]; [reflexivity|discriminate].
Qed.

(** X4. Whitespace between two tokens does not change the token
    sequence: at a cut that does not fall inside a number or a name, any
    run of whitespace can be put in. *)
Theorem spaces_between_tokens pre ws suf ts :
  tokenize pre = Ok ts -> boundary pre suf ->
  forallb is_space ws = true ->
  tokenize (pre ++ ws ++ suf) = tokenize (pre ++ suf).
Proof.
  intros H Hb Hws. unfold tokenize in *.
  assert (Hbw : boundary pre (ws ++ suf)).
  { destruct ws as [|w ws]; [exact Hb|]. apply boundary_non_word, space_not_word.
    simpl in Hws. apply andb_prop in Hws as [Hw _]. exact Hw. }
  rewrite (tokenize_from_app _ _ _ _ H Hbw), (tokenize_from_app _ _ _ _ H Hb).
  rewrite tokenize_from_spaces by exact Hws. reflexivity.
Qed.

Lemma spaces_between_tokens_witness :
  tokenize (text "(a +  7)") = tokenize (text "(a +7)").
Proof.
  exact (spaces_between_tokens (text "(a +") (text "  ") (text "7)")
           [ParToken true; VarToken "a"; OpToken "+"] eq_refl eq_refl eq_refl).
Defined.

(** ** The tokens the parser is given *)

Lemma operator_symbol c : is_operator c = true -> op_symbol (str1 c) = true.
Proof.
  destruct c as [[|] [|] [|] [|] [|] [|] [|] [|]]; vm_compute; intros H;
    (discriminate H || reflexivity).
Qed.

Lemma lexer_dispatch_tokens b code prev tokens :
  (forall code' p tokens', (length code' < length code)%nat ->
     lexer code' p = Ok tokens' -> Forall lexer_token tokens') ->
  lexer_dispatch lexer b code prev = Ok tokens -> Forall lexer_token tokens.
Proof.
  intros IH H. unfold lexer_dispatch in H.
  destruct code as [|c0 tl0]; [discriminate H|]. cbv zeta in H.
  assert (Htl : forall p tokens', lexer tl0 p = Ok tokens' -> Forall lexer_token tokens').
  { intros p tokens'. apply IH. simpl. lia. }
  assert (Hone : forall t, lexer_token t -> Forall lexer_token [t]) by (intros; repeat constructor; assumption).
  assert (Hmul : Forall lexer_token [OpToken "*"; IntToken (-1)])
    by (repeat constructor).
  destruct (is_digit c0) eqn:Hd.
  { apply bind_Ok_inv in H as (rest & Hrest & ->). apply Forall_app. split.
    - eapply IH; [apply drop_run_shorter; exact Hd | exact Hrest].
    - apply Hone. destruct b; exact I. }
  destruct (isalpha c0 || is_underscore c0) eqn:Ha.
  { apply bind_Ok_inv in H as (rest & Hrest & ->).
    assert (Hr : Forall lexer_token rest)
      by (eapply IH; [apply drop_run_shorter, isalpha_word; exact Ha | exact Hrest]).
    destruct b; repeat (apply Forall_app; split); auto; apply Hone; exact I. }
  destruct (is_operator c0) eqn:Ho.
  { apply bind_Ok_inv in H as (rest & Hrest & ->). apply Forall_app. split; [eauto|].
    apply Hone. simpl. apply operator_symbol. exact Ho. }
  destruct (is_paren c0).
  { apply bind_Ok_inv in H as (rest & Hrest & ->).
    destruct b; repeat (apply Forall_app; split); eauto; apply Hone; exact I. }
  destruct (is_space c0); [eauto|].
  destruct (Ascii.eqb c0 ";"); [|discriminate H].
  apply bind_Ok_inv in H as (rest & Hrest & ->). apply Forall_app. split; [eauto|].
  apply Hone. exact I.
Qed.

Lemma lexer_makes_tokens code : forall prev tokens,
  lexer code prev = Ok tokens -> Forall lexer_token tokens.
Proof.
  induction code as [code IH] using (induction_ltof1 _ (@length ascii)).
  unfold ltof in IH. intros prev tokens H.
  rewrite lexer_unfold in H. unfold lexer_body in H.
  destruct code as [|c tl]; [inversion H; constructor|].
  destruct (Ascii.eqb c "-" && sign_position prev).
  - apply (lexer_dispatch_tokens false tl prev); [|exact H].
    intros code' p tokens' Hlt. apply IH. simpl. lia.
  - apply (lexer_dispatch_tokens true (c :: tl) prev); [|exact H].
    intros code' p tokens' Hlt. apply IH. exact Hlt.
Qed.

(** X5. Every operator token the tokenizer makes holds one of
    [+ - * / =]. *)
Theorem lexer_tokens code : forall prev tokens,
  lexer code prev = Ok tokens -> Forall lexer_token tokens.
Proof. apply lexer_makes_tokens. Qed.

Lemma lexer_tokens_witness :
  Forall lexer_token [IntToken 4; OpToken "/"; VarToken "a"; OpToken "="; VarToken "b"].
Proof. exact (lexer_tokens (text "b=a/4") None _ eq_refl). Defined.

Lemma pop_Ok_snoc {A} (l l' : list A) x : pop l = Ok (x, l') -> l = l' ++ [x].
Proof.
  unfold pop. destruct l as [|a l0] using rev_ind; [discriminate|].
  rewrite last_snoc, removelast_last. intros H. inversion H. reflexivity.
Qed.

Lemma pop_Raise {A} (l : list A) e : pop l = Raise e -> e = IndexError.
Proof. unfold pop. destruct (last l); intros H; inversion H. reflexivity. Qed.

Lemma arith_precedence v : arith_op v = true -> exists p, op_precedence v = Ok p.
Proof.
  unfold arith_op, op_precedence.
  repeat (destruct (String.eqb v _); [eauto|]). discriminate.
Qed.

Lemma arith_lookup v : arith_op v = true -> exists node, op_lookup v = Ok node.
Proof.
  unfold arith_op, op_lookup.
  repeat (destruct (String.eqb v _); [eauto|]). discriminate.
Qed.

Lemma handle_top_ok op st :
  ops_ok st -> (forall o, op = Some o -> arith_op o = true) ->
  match handle_top op st with
  | Ok st' => ops_ok st'
  | Raise e => e = IndexError
  | OutOfFuel => False
  end.
Proof.
  destruct st as [op_stk exp_stk]. unfold ops_ok, handle_top. simpl. intros Hops Hop.
  destruct (pop op_stk) as [[top ops']|e|] eqn:E1; simpl;
    [|exact (pop_Raise _ _ E1)|exact (pop_terminates _ E1)].
  apply pop_Ok_snoc in E1. subst op_stk. apply Forall_app in Hops as [Hops' Htop].
  destruct (pop exp_stk) as [[rhs exps']|e|] eqn:E2; simpl;
    [|exact (pop_Raise _ _ E2)|exact (pop_terminates _ E2)].
  destruct (pop exps') as [[lhs exps'']|e|] eqn:E3; simpl;
    [|exact (pop_Raise _ _ E3)|exact (pop_terminates _ E3)].
  inversion Htop as [|? ? Ht _]; subst.
  destruct (arith_lookup top Ht) as [node ->]. simpl.
  destruct op as [[|c o]|]; simpl; try exact Hops'.
  apply Forall_app. split; [exact Hops'|]. constructor; [|constructor].
  apply Hop. reflexivity.
Qed.

Lemma drain_rounds_ok n : forall st,
  ops_ok st ->
  match drain_rounds n st with
  | Ok st' => ops_ok st'
  | Raise e => e = IndexError
  | OutOfFuel => False
  end.
Proof.
  induction n as [|n IH]; intros st Hst; simpl; [exact Hst|].
  pose proof (handle_top_ok None st Hst ltac:(discriminate)) as H.
  destruct (handle_top None st) as [st'|e|]; simpl; [apply IH; exact H | exact H | exact H].
Qed.

Lemma finish_Raise st pos e : ops_ok st -> finish st pos = Raise e -> e = IndexError.
Proof.
  intros Hst. unfold finish, drain.
  pose proof (drain_rounds_ok (length st.1) st Hst) as H.
  destruct (drain_rounds (length st.1) st) as [[ops exps]|e'|]; simpl;
    [|intros E; inversion E; congruence|discriminate].
  destruct exps; intros E; inversion E. reflexivity.
Qed.

Lemma finish_Ok st pos exp k : finish st pos = Ok (exp, k) -> k = pos.
Proof.
  unfold finish. destruct (drain st) as [[ops exps]|e'|]; simpl; [|discriminate..].
  destruct exps; intros E; inversion E. reflexivity.
Qed.

Lemma push_operator_ok op st :
  ops_ok st -> arith_op op = true ->
  match push_operator op st with
  | Ok st' => ops_ok st'
  | Raise e => e = IndexError
  | OutOfFuel => False
  end.
Proof.
  intros Hst Hop. pose proof Hst as Hops.
  destruct st as [op_stk exp_stk]. unfold ops_ok in Hops. simpl in Hops.
  unfold push_operator.
  assert (Hpush : ops_ok (op_stk ++ [op], exp_stk)).
  { unfold ops_ok. simpl. apply Forall_app. split; [exact Hops|]. repeat constructor.
    exact Hop. }
  destruct (last op_stk) as [top|] eqn:El; [|exact Hpush].
  destruct (arith_precedence op Hop) as [p ->]. simpl.
  assert (Ht : arith_op top = true).
  { apply last_Some_elem_of in El. rewrite Forall_forall in Hops. apply Hops. exact El. }
  destruct (arith_precedence top Ht) as [q ->]. simpl.
  destruct (p <=? q)%nat; [|exact Hpush].
  refine (handle_top_ok (Some op) (op_stk, exp_stk) Hst _).
  intros o E. inversion E. subst. exact Hop.
Qed.

Lemma parser_loop_lexed fuel : forall tokens nested_level pos st e,
  Forall lexer_token tokens -> ops_ok st ->
  parser_loop fuel tokens nested_level pos st = Raise e -> parse_error e.
Proof.
  induction fuel as [|fuel IH]; intros tokens nested_level pos st e Htok Hst H;
    [discriminate H|].
  cbn [parser_loop] in H.
  assert (Hnil : ops_ok ([], [])) by constructor.
  assert (Hfin : forall p, finish st p = Raise e -> parse_error e)
    by (intros p E; left; exact (finish_Raise _ _ _ Hst E)).
  destruct (tokens !! pos) as [t|] eqn:Et; [|eauto].
  pose proof (Forall_lookup_1 _ _ _ _ Htok Et) as Ht.
  destruct t as [x|v|op|[|]|].
  - exact (IH _ _ _ (st.1, _) _ Htok Hst H).
  - exact (IH _ _ _ (st.1, _) _ Htok Hst H).
  - destruct (String.eqb op "=") eqn:Eop.
    + destruct (pop st.2) as [[[] exp_stk]| |] eqn:Ep;
        try (inversion H; right; left; reflexivity).
      apply bind_Raise_inv in H as [H|([val k] & _ & H)];
        [eauto using Forall_drop|].
      apply bind_Raise_inv in H as [H|([body k'] & _ & H)];
        [eauto using Forall_drop|].
      left. eapply finish_Raise; [|exact H]. exact Hst.
    + assert (Hop : arith_op op = true).
      { simpl in Ht. unfold op_symbol in Ht. rewrite Eop, orb_false_r in Ht. exact Ht. }
      pose proof (push_operator_ok op st Hst Hop) as Hp.
      destruct (push_operator op st) as [st'|e'|]; simpl in H;
        [eauto | inversion H; left; congruence | discriminate H].
  - apply bind_Raise_inv in H as [H|([exp k] & _ & H)]; [eauto using Forall_drop|].
    exact (IH _ _ _ (st.1, _) _ Htok Hst H).
  - destruct (nested_level =? 0)%nat; [|eauto].
    inversion H. right; right. reflexivity.
  - eauto.
Qed.

Lemma parser_lexed_cases code tokens nested_level e :
  tokenize code = Ok tokens ->
  parser tokens nested_level = Raise e -> parse_error e.
Proof.
  intros Hl Hp. apply tokenize_from_Ok, lexer_makes_tokens, Forall_rev in Hl.
  rewrite rev_involutive in Hl.
  apply (parser_loop_lexed _ _ _ _ _ _ Hl) in Hp; [exact Hp | constructor].
Qed.

(** X6. On the tokens of any text the parser raises neither the
    [KeyError] of [op_precedence] nor the [ValueError] of [op_lookup]:
    every operator it looks up is one of [+ - * /].  What it can raise is
    [IndexError] and the two syntax errors of [=] and [)]. *)
Theorem parser_of_lexed_raises code tokens nested_level e :
  tokenize code = Ok tokens ->
  parser tokens nested_level = Raise e -> parse_error e.
Proof. apply parser_lexed_cases. Qed.

Lemma parser_of_lexed_raises_witness : parse_error (SyntaxError "Unexpected assignment").
Proof.
  exact (parser_of_lexed_raises (text "2*3=x")
           [IntToken 2; OpToken "*"; IntToken 3; OpToken "="; VarToken "x"] 0
           (SyntaxError "Unexpected assignment") eq_refl eq_refl).
Defined.

(** ** How many tokens a parse consumes *)

Lemma parser_loop_consumed fuel : forall tokens nested_level pos st exp k,
  (pos <= length tokens)%nat ->
  parser_loop fuel tokens nested_level pos st = Ok (exp, k) ->
  (pos <= k <= length tokens)%nat /\ (pos < length tokens -> pos < k)%nat.
Proof.
  induction fuel as [|fuel IH]; intros tokens nested_level pos st exp k Hpos H;
    [discriminate H|].
  cbn [parser_loop] in H.
  destruct (tokens !! pos) as [t|] eqn:Et.
  2:{ apply finish_Ok in H. apply lookup_ge_None in Et. lia. }
  apply lookup_lt_Some in Et.
  assert (Hsub : forall p v k1, (p <= length tokens)%nat ->
            parser_loop fuel (drop p tokens) nested_level 0 ([], []) = Ok (v, k1) \/
            parser_loop fuel (drop p tokens) (nested_level + 1) 0 ([], []) = Ok (v, k1) ->
            (p + k1 <= length tokens)%nat).
  { intros p v k1 Hp [E|E]; apply IH in E; try lia;
      rewrite length_drop in E; lia. }
  assert (Hnext : forall p st', (pos < p <= length tokens)%nat ->
            parser_loop fuel tokens nested_level p st' = Ok (exp, k) ->
            (pos <= k <= length tokens)%nat /\ (pos < length tokens -> pos < k)%nat).
  { intros p st' Hp E. apply IH in E; lia. }
  assert (Hfin : forall st', finish st' (pos + 1) = Ok (exp, k) ->
            (pos <= k <= length tokens)%nat /\ (pos < length tokens -> pos < k)%nat).
  { intros st' E. apply finish_Ok in E. lia. }
  destruct t as [x|v|op|[|]|].
  - eapply Hnext; [|exact H]. lia.
  - eapply Hnext; [|exact H]. lia.
  - destruct (String.eqb op "=").
    + destruct (pop st.2) as [[[] exp_stk]| |]; try discriminate H.
      destruct (parser_loop fuel (drop (pos + 1) tokens) nested_level 0 ([], []))
        as [[val k1]|e'|] eqn:E1; simpl in H; try discriminate H.
      pose proof (Hsub (pos + 1)%nat val k1 ltac:(lia) (or_introl E1)) as H1.
      destruct (parser_loop fuel (drop (pos + 1 + k1) tokens) nested_level 0 ([], []))
        as [[body k2]|e'|] eqn:E2; simpl in H; try discriminate H.
      pose proof (Hsub (pos + 1 + k1)%nat body k2 ltac:(lia) (or_introl E2)) as H2.
      apply finish_Ok in H. lia.
    + destruct (push_operator op st) as [st'|e'|]; simpl in H; try discriminate H.
      eapply Hnext; [|exact H]. lia.
  - destruct (parser_loop fuel (drop (pos + 1) tokens) (nested_level + 1) 0 ([], []))
      as [[exp' k1]|e'|] eqn:E1; simpl in H; try discriminate H.
    pose proof (Hsub (pos + 1)%nat exp' k1 ltac:(lia) (or_intror E1)) as H1.
    eapply Hnext; [|exact H]. lia.
  - destruct (nested_level =? 0)%nat; [discriminate H | eauto].
  - eauto.
Qed.

(** X7. A parse that returns has consumed at least one token and no
    more tokens than it was given. *)
Theorem parser_consumed tokens nested_level exp k :
  parser tokens nested_level = Ok (exp, k) -> (1 <= k <= length tokens)%nat.
Proof.
  intros H. unfold parser in H.
  destruct tokens as [|t tokens]; [discriminate H|].
  apply parser_loop_consumed in H; simpl in *; lia.
Qed.

Lemma parser_consumed_witness : (1 <= 4 <= 5)%nat.
Proof.
  exact (parser_consumed [IntToken 1; OpToken "+"; IntToken 2; EndToken; VarToken "x"] 0
           (Sum (Int 1) (Int 2)) 4 eq_refl).
Defined.

(** ** Blank lines *)

(** X8. An empty or all-whitespace line has no tokens, and the pipeline
    ends in the [IndexError] of [exp_stk[0]] on the parser's empty
    stack. *)
Theorem blank_line ws env (σ : store) :
  forallb is_space ws = true ->
  tokenize ws = Ok [] /\ (interpret ws env σ).1 = Raise IndexError.
Proof.
  intros Hws.
  assert (E : tokenize ws = Ok []).
  { unfold tokenize. rewrite <- (app_nil_r ws), tokenize_from_spaces by exact Hws.
    reflexivity. }
  split; [exact E|]. unfold interpret. rewrite E. reflexivity.
Qed.

Lemma blank_line_witness :
  tokenize (text "   ") = Ok [] /\ (interpret (text "   ") 0 [∅]).1 = Raise IndexError.
Proof. exact (blank_line (text "   ") 0%nat [∅] eq_refl). Defined.

(** ** The evaluator as a function of the bindings *)

Lemma value_in_binary f l r d :
  (binary f (eval l 0%nat) (eval r 0%nat) [d]).1
  = a ← value_in l d; b ← value_in r d; f a b.
Proof.
  unfold binary, value_in.
  destruct (eval_extends l 0%nat [d]) as [ext E].
  destruct (eval l 0%nat [d]) as [[a|x|] σ1]; simpl in *; [|reflexivity..].
  subst σ1.
  assert (Hs : same_env 0 (d :: ext) 0 [d]).
  { unfold same_env. simpl. repeat split; lia. }
  rewrite <- (eval_result r _ _ _ _ Hs).
  destruct (eval r 0%nat (d :: ext)) as [[b|x|] σ2]; reflexivity.
Qed.

Lemma value_in_assign name val body d :
  value_in (Assign name val body) d = v ← value_in val d; value_in body (<[name:=v]> d).
Proof.
  unfold value_in. simpl.
  assert (Hc : same_env 1 [d; d] 0 [d]).
  { unfold same_env. simpl. repeat split; lia. }
  change ([d] !!! 0%nat) with d.
  rewrite <- (eval_result val _ _ _ _ Hc).
  destruct (eval_extends val 1%nat [d; d]) as [ext E].
  destruct (eval val 1%nat [d; d]) as [[v|x|] σ1]; simpl in *; [|reflexivity..].
  subst σ1. apply eval_result.
  unfold same_env, setitem. rewrite length_alter.
  rewrite list_lookup_total_alter_eq by (simpl; lia).
  simpl. repeat split; lia.
Qed.

Lemma value_in_binary_denote f l r d :
  (forall d, value_in l d = denote l d) -> (forall d, value_in r d = denote r d) ->
  (binary f (eval l 0%nat) (eval r 0%nat) [d]).1
  = a ← denote l d; b ← denote r d; f a b.
Proof.
  intros Hl Hr. rewrite value_in_binary, Hl.
  destruct (denote l d); simpl; [rewrite Hr|..]; reflexivity.
Qed.

Lemma value_in_denote exp : forall d, value_in exp d = denote exp d.
Proof.
  induction exp as [l IHl r IHr|l IHl r IHr|e IHe|l IHl r IHr|l IHl r IHr|v
                   |name val IHval body IHbody|name]; intros d.
  - exact (value_in_binary_denote _ l r d IHl IHr).
  - exact (value_in_binary_denote _ l r d IHl IHr).
  - unfold value_in. simpl. specialize (IHe d). unfold value_in in IHe.
    destruct (eval e 0%nat [d]) as [[a|x|] σ1]; simpl in *; rewrite <- IHe; reflexivity.
  - exact (value_in_binary_denote _ l r d IHl IHr).
  - exact (value_in_binary_denote _ l r d IHl IHr).
  - reflexivity.
  - rewrite value_in_assign, IHval. simpl.
    destruct (denote val d); simpl; [apply IHbody | reflexivity..].
  - unfold value_in. simpl. change ([d] !!! 0%nat) with d.
    destruct (d !! name); reflexivity.
Qed.

Lemma eval_is_denote exp env (σ : store) :
  (env < length σ)%nat -> (eval exp env σ).1 = denote exp (σ !!! env).
Proof.
  intros Henv. rewrite <- value_in_denote. unfold value_in. apply eval_result.
  unfold same_env. simpl. repeat split; lia.
Qed.

(** X9. The store-passing evaluator computes the function of the
    bindings alone that [denote] defines: the dicts it allocates and
    writes are not observable in the result. *)
Theorem eval_denote exp env (σ : store) :
  (env < length σ)%nat -> (eval exp env σ).1 = denote exp (σ !!! env).
Proof. apply eval_is_denote. Qed.

Lemma eval_denote_witness :
  (eval (Assign "x" (Int 2) (Product (Var "x") (Var "y"))) 1%nat [∅; {["y" := 7]}]).1
  = denote (Assign "x" (Int 2) (Product (Var "x") (Var "y"))) {["y" := 7]}.
Proof.
  exact (eval_denote (Assign "x" (Int 2) (Product (Var "x") (Var "y"))) 1%nat
           [∅; {["y" := 7]}] (le_n 2)).
Defined.

(** X10. The [Negation] node, which the parser never builds, evaluates
    as the product by [-1] that the tokenizer's desugaring leads to: same
    result, same store. *)
Theorem negation_as_product exp env (σ : store) :
  eval (Negation exp) env σ = eval (Product (Int (-1)) exp) env σ.
Proof.
  cbn [eval]. unfold binary.
  destruct (eval exp env σ) as [[a|x|] σ1]; [|reflexivity..].
  replace (-1 * a) with (- a) by lia. reflexivity.
Qed.

Lemma eval_error_sub sub exp e :
  eval_error sub e ->
  (divides sub = true -> divides exp = true) ->
  (forall x, In x (names sub) -> In x (names exp)) ->
  eval_error exp e.
Proof. intros [[-> Hd]|(x & Hx & ->)] Hdiv Hnames; [left; auto | right; eauto]. Qed.

Lemma denote_raises exp : forall d e, denote exp d = Raise e -> eval_error exp e.
Proof.
  induction exp as [l IHl r IHr|l IHl r IHr|e0 IHe|l IHl r IHr|l IHl r IHr|v
                   |name val IHval body IHbody|name]; intros d e H; simpl in H.
  all: try (apply bind_Raise_inv in H as [H|(a & _ & H)];
            [eapply eval_error_sub;
             [exact (IHl _ _ H) | simpl; intros Hd; rewrite ?Hd; reflexivity
             | simpl; intros x Hx; apply in_or_app; left; exact Hx]|];
            apply bind_Raise_inv in H as [H|(b & _ & H)];
            [eapply eval_error_sub;
             [exact (IHr _ _ H) | simpl; intros Hd; rewrite ?Hd, ?orb_true_r; reflexivity
             | simpl; intros x Hx; apply in_or_app; right; exact Hx]|]).
  - discriminate H.
  - discriminate H.
  - apply bind_Raise_inv in H as [H|(a & _ & H)]; [exact (IHe _ _ H) | discriminate H].
  - discriminate H.
  - unfold floordiv in H. destruct (b =? 0); inversion H. left. split; reflexivity.
  - discriminate H.
  - apply bind_Raise_inv in H as [H|(a & _ & H)].
    + eapply eval_error_sub;
        [exact (IHval _ _ H) | simpl; intros Hd; rewrite ?Hd; reflexivity
        | simpl; intros x Hx; apply in_or_app; left; exact Hx].
    + eapply eval_error_sub;
        [exact (IHbody _ _ H) | simpl; intros Hd; rewrite ?Hd, ?orb_true_r; reflexivity
        | simpl; intros x Hx; apply in_or_app; right; exact Hx].
  - destruct (d !! name); inversion H. right. exists name. split; [left|]; reflexivity.
Qed.

Lemma eval_raise_cases exp env (σ : store) e :
  (env < length σ)%nat -> (eval exp env σ).1 = Raise e -> eval_error exp e.
Proof. intros Henv H. rewrite eval_is_denote in H by exact Henv. exact (denote_raises _ _ _ H). Qed.

(** X11. The evaluator raises nothing but [ZeroDivisionError], and only
    on an expression with a [Quotient] node, and the unbound-variable
    [RuntimeError], naming a variable that the expression reads. *)
Theorem eval_raises exp env (σ : store) e :
  (env < length σ)%nat -> (eval exp env σ).1 = Raise e -> eval_error exp e.
Proof. apply eval_raise_cases. Qed.

Lemma eval_raises_witness :
  eval_error (Sum (Int 1) (Var "y")) (RuntimeError "Unbound variable" "y").
Proof.
  exact (eval_raises (Sum (Int 1) (Var "y")) 0%nat [∅] _ (le_n 1) eq_refl).
Defined.

Lemma denote_agree exp : forall d1 d2,
  (forall x, In x (names exp) -> d1 !! x = d2 !! x) -> denote exp d1 = denote exp d2.
Proof.
  induction exp as [l IHl r IHr|l IHl r IHr|e0 IHe|l IHl r IHr|l IHl r IHr|v
                   |name val IHval body IHbody|name]; intros d1 d2 H; simpl in *;
    try (rewrite (IHl d1 d2), (IHr d1 d2);
         [reflexivity | intros x Hx; apply H, in_or_app; auto..]).
  - rewrite (IHe d1 d2 H). reflexivity.
  - reflexivity.
  - rewrite (IHval d1 d2) by (intros x Hx; apply H, in_or_app; auto).
    destruct (denote val d2); simpl; [|reflexivity..].
    apply IHbody. intros x Hx.
    destruct (decide (name = x)) as [->|Hne].
    + rewrite !lookup_insert_eq. reflexivity.
    + rewrite !lookup_insert_ne by exact Hne. apply H, in_or_app. auto.
  - rewrite (H name) by (left; reflexivity). reflexivity.
Qed.

(** X12. The result of an evaluation depends on the bindings of the
    variables the expression reads, and on nothing else in the two
    environments. *)
Theorem eval_reads_names exp env (σ : store) env2 (σ2 : store) :
  (env < length σ)%nat -> (env2 < length σ2)%nat ->
  (forall x, In x (names exp) -> (σ !!! env) !! x = (σ2 !!! env2) !! x) ->
  (eval exp env σ).1 = (eval exp env2 σ2).1.
Proof.
  intros H1 H2 H. rewrite !eval_is_denote by assumption. apply denote_agree. exact H.
Qed.

Lemma eval_reads_names_witness :
  (eval (Sum (Var "a") (Int 1)) 0%nat [{["a" := 4]}]).1
  = (eval (Sum (Var "a") (Int 1)) 1%nat [∅; <["b" := 9]> {["a" := 4]}]).1.
Proof.
  refine (eval_reads_names (Sum (Var "a") (Int 1)) 0%nat [{["a" := 4]}] 1%nat
            [∅; <["b" := 9]> {["a" := 4]}] (le_n 1) (le_n 2) _).
  intros x [<-|[]]. vm_compute. reflexivity.
Defined.

(** X13. A [Quotient] whose operands evaluate to [a] and to a [b]
    other than zero gives the quotient rounded toward minus infinity: the
    remainder [a - b * q] lies between zero and [b], zero included and
    [b] excluded. *)
Theorem quotient_floor l r env (σ σ1 σ2 : store) a b :
  eval l env σ = (Ok a, σ1) -> eval r env σ1 = (Ok b, σ2) -> b <> 0 ->
  exists q, eval (Quotient l r) env σ = (Ok q, σ2)
            /\ (0 < b -> 0 <= a - b * q < b) /\ (b < 0 -> b < a - b * q <= 0).
Proof.
  intros Hl Hr Hb. exists (a / b). split.
  - simpl. unfold binary. rewrite Hl, Hr. unfold floordiv.
    destruct (Z.eqb_spec b 0) as [E|_]; [contradiction | reflexivity].
  - replace (a - b * (a / b)) with (a mod b) by (rewrite Z.mod_eq by exact Hb; reflexivity).
    split; intros Hs; [apply Z.mod_pos_bound | apply Z.mod_neg_bound]; exact Hs.
Qed.

Lemma quotient_floor_witness :
  exists q, eval (Quotient (Int (-7)) (Int 2)) 0%nat [∅] = (Ok q, [∅])
            /\ (0 < 2 -> 0 <= -7 - 2 * q < 2) /\ (2 < 0 -> 2 < -7 - 2 * q <= 0).
Proof.
  exact (quotient_floor (Int (-7)) (Int 2) 0%nat [∅] [∅] [∅] (-7) 2 eq_refl eq_refl
           ltac:(discriminate)).
Defined.

(** ** The host's loop *)

Lemma interpret_extends user_code env (σ : store) :
  exists ext, (interpret user_code env σ).2 = σ ++ ext.
Proof.
  unfold interpret.
  destruct (tokens ← tokenize user_code; parser tokens 0) as [[ast k]|e|];
    [|exists []; rewrite app_nil_r; reflexivity..].
  unfold copy. destruct (eval_extends ast (length σ) (σ ++ [σ !!! env])) as [ext ->].
  rewrite <- app_assoc. eauto.
Qed.

Lemma interpret_result user_code env (σ : store) env2 (σ2 : store) :
  same_env env σ env2 σ2 ->
  (interpret user_code env σ).1 = (interpret user_code env2 σ2).1.
Proof.
  intros (H1 & H2 & H). unfold interpret.
  destruct (tokens ← tokenize user_code; parser tokens 0) as [[ast k]|e|];
    [|reflexivity..].
  unfold copy. apply eval_result.
  unfold same_env. rewrite !length_app, !list_lookup_total_middle by reflexivity.
  simpl. repeat split; [lia | lia | exact H].
Qed.

(** X14. No binding outlives its line: every line of a session is
    evaluated under the bindings the module's [env] had when the loop
    started (none, in the source), whatever the lines before it assigned;
    the loop prints the values of the lines up to the first one that
    raises, and that exception ends it. *)
Theorem host_lines_independent lines : forall env (σ : store),
  (env < length σ)%nat ->
  host lines env σ
  = session (map (fun user_code => (interpret user_code 0 [σ !!! env]).1) lines).
Proof.
  induction lines as [|user_code lines IH]; intros env σ Henv; [reflexivity|].
  simpl.
  assert (Hs : same_env env σ 0 [σ !!! env]).
  { unfold same_env. simpl. repeat split; lia. }
  rewrite <- (interpret_result user_code _ _ _ _ Hs).
  destruct (interpret_extends user_code env σ) as [ext E].
  destruct (interpret user_code env σ) as [[v|e|] σ1]; simpl in *; [|reflexivity..].
  subst σ1. rewrite IH by (rewrite length_app; lia).
  rewrite lookup_total_app_l by exact Henv. reflexivity.
Qed.

Lemma host_lines_independent_witness :
  host [text "x=5;x+1"; text "2*3"; text "x"; text "4"] 0 [∅]
  = ([6; 6], Uncaught (RuntimeError "Unbound variable" "x")).
Proof.
  exact (host_lines_independent [text "x=5;x+1"; text "2*3"; text "x"; text "4"]
           0%nat [∅] (le_n 1)).
Defined.

(** ** The exceptions of a line *)

(** X15. A line run through the pipeline ends, if not with a value, with
    one of: [IndexError]; the "unknown token" syntax error for a
    character of the line; the "unexpected assignment" or "unbalanced
    parentheses" syntax error; [ZeroDivisionError]; the unbound-variable
    [RuntimeError]. *)
Theorem interpret_raises user_code env (σ : store) e :
  (interpret user_code env σ).1 = Raise e -> line_error user_code e.
Proof.
  unfold interpret, line_error. intros H.
  destruct (tokenize user_code) as [tokens|e'|] eqn:El; simpl in H.
  - destruct (parser tokens 0) as [[ast k]|e'|] eqn:Ep; simpl in H.
    + unfold copy in H. apply eval_raise_cases in H; [|rewrite length_app; simpl; lia].
      destruct H as [[-> _]|(x & _ & ->)]; eauto.
    + inversion H; subst. right. left.
      exact (parser_lexed_cases _ _ _ _ El Ep).
    + discriminate H.
  - inversion H; subst. left. unfold tokenize, tokenize_from in El.
    destruct (lexer user_code None) as [tokens|e'|] eqn:E; inversion El; subst.
    exact (lexer_raise_cases _ _ _ E).
  - discriminate H.
Qed.

Lemma interpret_raises_witness : line_error (text "1/(2-2)") ZeroDivisionError.
Proof. exact (interpret_raises (text "1/(2-2)") 0%nat [∅] ZeroDivisionError eq_refl). Defined.

(** ** Literal lines *)

(** X16. A line that is a run of digits evaluates to the number they
    write in base ten, and with a [-] before it to its opposite. *)
Theorem literal_line ds env (σ : store) :
  ds <> [] -> forallb is_digit ds = true ->
  (interpret ds env σ).1 = Ok (int_of_digits ds)
  /\ (interpret ("-"%char :: ds) env σ).1 = Ok (- int_of_digits ds).
Proof.
  intros Hne Hds.
  assert (E1 : tokenize ds = Ok [IntToken (int_of_digits ds)]).
  { unfold tokenize. rewrite <- (app_nil_r ds) at 1.
    rewrite tokenize_from_digits by (assumption || reflexivity). reflexivity. }
  assert (E2 : tokenize ("-"%char :: ds) = Ok [IntToken (- int_of_digits ds)]).
  { unfold tokenize. rewrite <- (app_nil_r ds) at 1.
    rewrite tokenize_from_sign by (assumption || reflexivity). reflexivity. }
  unfold interpret. rewrite E1, E2. split; reflexivity.
Qed.

Lemma literal_line_witness :
  (interpret (text "0042") 0 [∅]).1 = Ok 42
  /\ (interpret (text "-0042") 0 [∅]).1 = Ok (-42).
Proof. exact (literal_line (text "0042") 0%nat [∅] ltac:(discriminate) eq_refl). Defined.

(** ** Chains of operators of one precedence *)

Lemma precedence_facts op prec :
  op_precedence op = Ok prec ->
  String.eqb op "=" = false /\ op_lookup op = Ok (node op)
  /\ exists c s, op = String c s.
Proof.
  unfold op_precedence, node, op_lookup.
  destruct (String.eqb_spec op "+") as [->|_]; [intros _; repeat split; eauto|].
  destruct (String.eqb_spec op "-") as [->|_]; [intros _; repeat split; eauto|].
  destruct (String.eqb_spec op "*") as [->|_]; [intros _; repeat split; eauto|].
  destruct (String.eqb_spec op "/") as [->|_]; [intros _; repeat split; eauto|].
  discriminate.
Qed.

Lemma handle_top_pair op' op acc a :
  op_lookup op = Ok (node op) ->
  handle_top op' ([op], [acc; a])
  = Ok (match op' with Some (String _ _ as o) => [o] | _ => [] end, [node op acc a]).
Proof.
  intros Hf. unfold handle_top, pop. simpl. rewrite Hf. simpl.
  destruct op' as [[|c o]|]; reflexivity.
Qed.

Lemma parser_loop_operator fuel tokens nested_level pos st op :
  tokens !! pos = Some (OpToken op) -> String.eqb op "=" = false ->
  parser_loop (S fuel) tokens nested_level pos st
  = st' ← push_operator op st; parser_loop fuel tokens nested_level (pos + 1) st'.
Proof. intros Ht Heq. cbn [parser_loop]. rewrite Ht, Heq. reflexivity. Qed.

Lemma parser_loop_atom fuel tokens nested_level pos st t :
  tokens !! pos = Some t -> atom t = true ->
  parser_loop (S fuel) tokens nested_level pos st
  = parser_loop fuel tokens nested_level (pos + 1) (st.1, st.2 ++ [operand t]).
Proof.
  intros Ht Ha. cbn [parser_loop]. rewrite Ht.
  destruct t; try discriminate Ha; reflexivity.
Qed.

Lemma parser_loop_end fuel tokens nested_level pos st :
  tokens !! pos = None ->
  parser_loop (S fuel) tokens nested_level pos st = finish st pos.
Proof. intros Ht. cbn [parser_loop]. rewrite Ht. reflexivity. Qed.

Lemma push_operator_same prec op' op acc a :
  op_precedence op' = Ok prec -> op_precedence op = Ok prec ->
  push_operator op' ([op], [acc; a]) = Ok ([op'], [node op acc a]).
Proof.
  intros Hop' Hop.
  destruct (precedence_facts op prec Hop) as (_ & Hf & _).
  destruct (precedence_facts op' prec Hop') as (_ & _ & c & s' & Hs).
  unfold push_operator. simpl last. rewrite Hop', Hop. unfold mbind, result_bind.
  rewrite Nat.leb_refl, (handle_top_pair (Some op') op acc a Hf).
  rewrite Hs. reflexivity.
Qed.

Lemma finish_pair prec op acc a pos :
  op_precedence op = Ok prec ->
  finish ([op], [acc; a]) pos = Ok (node op acc a, pos).
Proof.
  intros Hop. destruct (precedence_facts op prec Hop) as (_ & Hf & _).
  unfold finish, drain. simpl length. cbn [drain_rounds].
  rewrite (handle_top_pair None op acc a Hf). reflexivity.
Qed.

Lemma parser_loop_stop fuel tokens nested_level pre tail k st :
  tokens = pre ++ tail -> stop_len nested_level tail = Some k ->
  parser_loop (S fuel) tokens nested_level (length pre) st
  = finish st (length pre + k).
Proof.
  intros -> Hk. cbn [parser_loop].
  destruct tail as [|[x|v|op|[|]|] more]; simpl in Hk; try discriminate Hk.
  - inversion Hk. rewrite app_nil_r, lookup_ge_None_2, Nat.add_0_r by lia. reflexivity.
  - rewrite list_lookup_middle by reflexivity.
    destruct (nested_level =? 0)%nat; inversion Hk. reflexivity.
  - rewrite list_lookup_middle by reflexivity. inversion Hk. reflexivity.
Qed.

Lemma parser_loop_chain prec nested_level tail k rest :
  forall tokens pre op acc a fuel,
  tokens = pre ++ chain rest ++ tail ->
  stop_len nested_level tail = Some k ->
  Forall (fun p => op_precedence p.1 = Ok prec /\ atom p.2 = true) rest ->
  op_precedence op = Ok prec ->
  (2 * length rest < fuel)%nat ->
  parser_loop fuel tokens nested_level (length pre) ([op], [acc; a])
  = Ok (fold_left (fun acc p => node p.1 acc (operand p.2)) rest (node op acc a),
        (length pre + length (chain rest) + k)%nat).
Proof.
  induction rest as [|[op' t'] rest IH];
    intros tokens pre op acc a fuel -> Hk Hrest Hop Hfuel.
  - destruct fuel as [|fuel]; [lia|]. simpl chain. simpl app.
    rewrite (parser_loop_stop _ _ _ pre tail k) by (reflexivity || exact Hk).
    rewrite Nat.add_0_r. exact (finish_pair prec op acc a _ Hop).
  - inversion Hrest as [|? ? [Hop' Hatom] Hrest']; subst. simpl in Hop', Hatom.
    destruct fuel as [|[|fuel]]; [simpl in Hfuel; lia..|].
    destruct (precedence_facts op' prec Hop') as (Heq & _ & _).
    simpl chain. rewrite <- !app_comm_cons.
    rewrite (parser_loop_operator _ _ _ _ _ op')
      by (rewrite ?list_lookup_middle by reflexivity; reflexivity || exact Heq).
    rewrite (push_operator_same prec op' op acc a Hop' Hop). unfold mbind, result_bind.
    rewrite (parser_loop_atom _ _ _ _ _ t'); [|
      replace (pre ++ OpToken op' :: t' :: chain rest ++ tail)
        with ((pre ++ [OpToken op']) ++ t' :: chain rest ++ tail)
        by (rewrite <- app_assoc; reflexivity);
      apply list_lookup_middle; rewrite length_app; simpl; lia | exact Hatom].
    replace (pre ++ OpToken op' :: t' :: chain rest ++ tail)
      with ((pre ++ [OpToken op'; t']) ++ chain rest ++ tail)
      by (rewrite <- !app_assoc; reflexivity).
    replace (length pre + 1 + 1)%nat with (length (pre ++ [OpToken op'; t']))
      by (rewrite length_app; simpl; lia).
    assert (Hlt : (2 * length rest < fuel)%nat) by (simpl in Hfuel; lia).
    etransitivity;
      [exact (IH _ (pre ++ [OpToken op'; t']) op' (node op acc a) (operand t') fuel
                eq_refl Hk Hrest' Hop' Hlt)|].
    rewrite length_app. simpl. f_equal. f_equal. lia.
Qed.

Lemma chain_length rest : length (chain rest) = (2 * length rest)%nat.
Proof. induction rest as [|p rest IH]; simpl in *; lia. Qed.

(** The parse of [t0 op1 t1 ...] from the start of a token list, up to
    where it stops. *)
Lemma parser_loop_chain_start prec nested_level tail k t0 rest fuel :
  atom t0 = true ->
  Forall (fun p => op_precedence p.1 = Ok prec /\ atom p.2 = true) rest ->
  stop_len nested_level tail = Some k ->
  (length (t0 :: chain rest) < fuel)%nat ->
  parser_loop fuel (t0 :: chain rest ++ tail) nested_level 0 ([], [])
  = Ok (left_nested t0 rest, (length (t0 :: chain rest) + k)%nat).
Proof.
  intros Ht0 Hrest Hk Hfuel. unfold left_nested.
  destruct fuel as [|fuel]; [lia|].
  rewrite (parser_loop_atom _ _ _ _ _ t0) by (reflexivity || exact Ht0).
  destruct rest as [|[op1 t1] rest].
  { simpl in Hfuel. destruct fuel as [|fuel]; [lia|]. simpl chain. simpl app.
    rewrite (parser_loop_stop _ _ _ [t0] tail k) by (reflexivity || exact Hk).
    reflexivity. }
  inversion Hrest as [|? ? [Hop1 Hatom1] Hrest']; subst. simpl in Hop1, Hatom1.
  destruct (precedence_facts op1 prec Hop1) as (Heq & _ & _).
  simpl in Hfuel. rewrite chain_length in Hfuel.
  destruct fuel as [|[|fuel]]; [lia..|].
  simpl chain. rewrite <- !app_comm_cons.
  rewrite (parser_loop_operator _ _ _ _ _ op1) by (reflexivity || exact Heq).
  unfold push_operator at 1. simpl last. unfold mbind, result_bind.
  rewrite (parser_loop_atom _ _ _ _ _ t1) by (reflexivity || exact Hatom1).
  assert (Hlt : (2 * length rest < fuel)%nat) by lia.
  etransitivity;
    [exact (parser_loop_chain prec nested_level tail k rest _ [t0; OpToken op1; t1] op1
              (operand t0) (operand t1) fuel eq_refl Hk Hrest' Hop1 Hlt)|].
  reflexivity.
Qed.

(** X17. A chain of operands joined by operators of one precedence
    ([+] and [-], or [*] and [/]) parses to the left-nested tree, and
    the parse consumes all of its tokens. *)
Theorem parser_left_associative prec nested_level t0 rest :
  atom t0 = true ->
  Forall (fun p => op_precedence p.1 = Ok prec /\ atom p.2 = true) rest ->
  parser (t0 :: chain rest) nested_level
  = Ok (left_nested t0 rest, length (t0 :: chain rest)).
Proof.
  intros Ht0 Hrest. unfold parser.
  pose proof (parser_loop_chain_start prec nested_level [] 0 t0 rest
                (S (length (t0 :: chain rest))) Ht0 Hrest eq_refl (le_n _)) as E.
  rewrite app_nil_r, Nat.add_0_r in E. exact E.
Qed.

Lemma parser_left_associative_witness :
  parser [IntToken 9; OpToken "-"; VarToken "a"; OpToken "+"; IntToken 2;
          OpToken "-"; IntToken 1] 0
  = Ok (Difference (Sum (Difference (Int 9) (Var "a")) (Int 2)) (Int 1), 7%nat).
Proof.
  exact (parser_left_associative 1 0 (IntToken 9)
           [("-"%string, VarToken "a"); ("+"%string, IntToken 2); ("-"%string, IntToken 1)]
           eq_refl ltac:(repeat (constructor; [split; reflexivity|]); constructor)).
Defined.

(** ** Terminators, parentheses and assignments *)

(** X18. The parse of a chain stops at the first terminator: it
    returns the chain's tree and has consumed the chain and the
    terminator, whatever tokens follow. *)
Theorem parser_stops_at_terminator prec nested_level t0 rest more :
  atom t0 = true ->
  Forall (fun p => op_precedence p.1 = Ok prec /\ atom p.2 = true) rest ->
  parser (t0 :: chain rest ++ EndToken :: more) nested_level
  = Ok (left_nested t0 rest, S (length (t0 :: chain rest))).
Proof.
  intros Ht0 Hrest. unfold parser.
  rewrite (parser_loop_chain_start prec nested_level (EndToken :: more) 1 t0 rest)
    by (assumption || reflexivity || (simpl; rewrite length_app; simpl; lia)).
  f_equal. f_equal. lia.
Qed.

Lemma parser_stops_at_terminator_witness :
  parser [IntToken 6; OpToken "/"; IntToken 3; EndToken; OpToken "+"; ParToken false] 0
  = Ok (Quotient (Int 6) (Int 3), 4%nat).
Proof.
  exact (parser_stops_at_terminator 2 0 (IntToken 6) [("/"%string, IntToken 3)]
           [OpToken "+"; ParToken false] eq_refl
           ltac:(repeat (constructor; [split; reflexivity|]); constructor)).
Defined.

(** X19. A chain in parentheses parses to the tree of the chain
    without them; the nested parse consumes the close parenthesis. *)
Theorem parser_parenthesised prec nested_level t0 rest :
  atom t0 = true ->
  Forall (fun p => op_precedence p.1 = Ok prec /\ atom p.2 = true) rest ->
  parser (ParToken true :: t0 :: chain rest ++ [ParToken false]) nested_level
  = Ok (left_nested t0 rest, length (ParToken true :: t0 :: chain rest ++ [ParToken false])).
Proof.
  intros Ht0 Hrest. unfold parser. cbn [parser_loop]. simpl lookup. simpl drop.
  rewrite (parser_loop_chain_start prec (nested_level + 1) [ParToken false] 1 t0 rest);
    [|exact Ht0|exact Hrest
     |simpl; rewrite Nat.add_1_r; reflexivity
     |simpl; rewrite length_app; simpl; lia].
  unfold mbind, result_bind.
  assert (Hlen : length (ParToken true :: t0 :: chain rest ++ [ParToken false])
                 = (0 + 1 + (length (t0 :: chain rest) + 1))%nat)
    by (simpl; rewrite length_app; simpl; lia).
  rewrite Hlen at 1.
  destruct (length (t0 :: chain rest ++ [ParToken false])) as [|fuel] eqn:E;
    [discriminate E|].
  rewrite parser_loop_end by (apply lookup_ge_None_2; lia).
  rewrite Hlen. reflexivity.
Qed.

Lemma parser_parenthesised_witness :
  parser [ParToken true; VarToken "a"; OpToken "+"; IntToken 1; ParToken false] 0
  = Ok (Sum (Var "a") (Int 1), 5%nat).
Proof.
  exact (parser_parenthesised 1 0 (VarToken "a") [("+"%string, IntToken 1)] eq_refl
           ltac:(repeat (constructor; [split; reflexivity|]); constructor)).
Defined.

Lemma parser_loop_assign fuel tokens nested_level pos ops exps name :
  tokens !! pos = Some (OpToken "=") ->
  parser_loop (S fuel) tokens nested_level pos (ops, exps ++ [Var name])
  = '(val, k) ← parser_loop fuel (drop (pos + 1) tokens) nested_level 0 ([], []);
    '(body, k') ← parser_loop fuel (drop (pos + 1 + k) tokens) nested_level 0 ([], []);
    finish (ops, exps ++ [Assign name val body]) (pos + 1 + k + k').
Proof.
  intros Ht. cbn [parser_loop]. rewrite Ht. simpl String.eqb. cbv iota.
  unfold pop. simpl snd. rewrite last_snoc, removelast_last. reflexivity.
Qed.

(** X20. [name = value ; body], with chains for the value and the body,
    parses to the [Assign] of the name, the value's tree and the body's
    tree, and consumes every token. *)
Theorem parser_assignment pv pb nested_level name v0 vrest b0 brest :
  atom v0 = true ->
  Forall (fun p => op_precedence p.1 = Ok pv /\ atom p.2 = true) vrest ->
  atom b0 = true ->
  Forall (fun p => op_precedence p.1 = Ok pb /\ atom p.2 = true) brest ->
  let tokens :=
    VarToken name :: OpToken "=" :: (v0 :: chain vrest) ++ EndToken :: b0 :: chain brest in
  parser tokens nested_level
  = Ok (Assign name (left_nested v0 vrest) (left_nested b0 brest), length tokens).
Proof.
  intros Hv0 Hvrest Hb0 Hbrest tokens. unfold parser.
  assert (Hlen : length tokens
                 = (2 + (length (v0 :: chain vrest) + 1) + length (b0 :: chain brest))%nat).
  { unfold tokens. simpl. rewrite length_app. simpl. lia. }
  rewrite (parser_loop_atom _ _ _ _ _ (VarToken name)) by reflexivity.
  destruct (length tokens) as [|fuel] eqn:E; [simpl in Hlen; lia|].
  change (([], []).1, ([], []).2 ++ [operand (VarToken name)])
    with (@nil string, [] ++ [Var name]).
  rewrite parser_loop_assign by reflexivity.
  change (drop (0 + 1 + 1) tokens)
    with ((v0 :: chain vrest) ++ EndToken :: b0 :: chain brest).
  rewrite <- app_comm_cons.
  rewrite (parser_loop_chain_start pv nested_level (EndToken :: b0 :: chain brest) 1
             v0 vrest) by (assumption || reflexivity || lia).
  unfold mbind at 1, result_bind at 1.
  assert (Hdrop : drop (0 + 1 + 1 + (length (v0 :: chain vrest) + 1)) tokens
                  = b0 :: chain brest ++ []).
  { unfold tokens. rewrite app_nil_r.
    change (VarToken name :: OpToken "=" :: (v0 :: chain vrest) ++ EndToken :: b0 :: chain brest)
      with ([VarToken name; OpToken "="] ++ (v0 :: chain vrest) ++ [EndToken] ++ b0 :: chain brest).
    rewrite !app_assoc. apply drop_app_length'. rewrite !length_app. simpl. lia. }
  rewrite Hdrop.
  rewrite (parser_loop_chain_start pb nested_level [] 0 b0 brest)
    by (assumption || reflexivity || lia).
  unfold mbind, result_bind. unfold finish, drain. simpl in Hlen |- *.
  f_equal. f_equal. lia.
Qed.

Lemma parser_assignment_witness :
  parser [VarToken "x"; OpToken "="; IntToken 2; OpToken "*"; IntToken 3; EndToken;
          VarToken "x"; OpToken "-"; IntToken 1] 0
  = Ok (Assign "x" (Product (Int 2) (Int 3)) (Difference (Var "x") (Int 1)), 9%nat).
Proof.
  exact (parser_assignment 2 1 0 "x" (IntToken 2) [("*"%string, IntToken 3)]
           (VarToken "x") [("-"%string, IntToken 1)]
           eq_refl ltac:(repeat (constructor; [split; reflexivity|]); constructor)
           eq_refl ltac:(repeat (constructor; [split; reflexivity|]); constructor)).
Defined.

(** X21. An assignment with nothing after its value, or with nothing
    after the terminator, has no body to parse: the parse of the empty
    rest fails with [IndexError]. *)
Theorem parser_assignment_without_body pv nested_level name v0 vrest :
  atom v0 = true ->
  Forall (fun p => op_precedence p.1 = Ok pv /\ atom p.2 = true) vrest ->
  parser (VarToken name :: OpToken "=" :: v0 :: chain vrest) nested_level
  = Raise IndexError
  /\ parser (VarToken name :: OpToken "=" :: v0 :: chain vrest ++ [EndToken]) nested_level
     = Raise IndexError.
Proof.
  intros Hv0 Hvrest.
  assert (Hgen : forall tail k, stop_len nested_level tail = Some k ->
            length tail = k ->
            parser (VarToken name :: OpToken "=" :: v0 :: chain vrest ++ tail) nested_level
            = Raise IndexError).
  { intros tail k Hk Hlen. unfold parser.
    set (tokens := VarToken name :: OpToken "=" :: v0 :: chain vrest ++ tail).
    assert (Hl : length tokens = (2 + (length (v0 :: chain vrest) + k))%nat).
    { unfold tokens. simpl. rewrite length_app. simpl. lia. }
    rewrite (parser_loop_atom _ _ _ _ _ (VarToken name)) by reflexivity.
    destruct (length tokens) as [|fuel] eqn:E; [lia|].
    change (([], []).1, ([], []).2 ++ [operand (VarToken name)])
      with (@nil string, [] ++ [Var name]).
    rewrite parser_loop_assign by reflexivity.
    change (drop (0 + 1 + 1) tokens) with (v0 :: chain vrest ++ tail).
    rewrite (parser_loop_chain_start pv nested_level tail k v0 vrest)
      by (assumption || lia).
    unfold mbind at 1, result_bind at 1.
    rewrite drop_ge by lia.
    destruct fuel as [|fuel]; [simpl in Hl; lia|]. reflexivity. }
  split.
  - rewrite <- (app_nil_r (chain vrest)). exact (Hgen [] 0%nat eq_refl eq_refl).
  - exact (Hgen [EndToken] 1%nat eq_refl eq_refl).
Qed.

Lemma parser_assignment_without_body_witness :
  parser [VarToken "x"; OpToken "="; IntToken 5] 0 = Raise IndexError
  /\ parser [VarToken "x"; OpToken "="; IntToken 5; EndToken] 0 = Raise IndexError.
Proof.
  exact (parser_assignment_without_body 1 0 "x" (IntToken 5) [] eq_refl
           ltac:(constructor)).
Defined.

(** ** Numbers and names *)

Lemma tokenize_from_name prev c cs rest :
  isalpha c || is_underscore c = true -> forallb word_char cs = true ->
  starts_with word_char rest = false ->
  tokenize_from prev (c :: cs ++ rest)
  = us ← tokenize_from (Some (VarToken (string_of_list_ascii (c :: cs)))) rest;
    Ok (VarToken (string_of_list_ascii (c :: cs)) :: us).
Proof.
  intros Hc Hcs Hrest. destruct (name_start_class c Hc) as [Hd Hm].
  unfold tokenize_from. rewrite lexer_unfold. unfold lexer_body.
  rewrite Hm. simpl andb. cbv iota. unfold lexer_dispatch. rewrite Hd, Hc. cbv zeta.
  assert (Hrun : run word_char (c :: cs ++ rest) = c :: cs).
  { rewrite app_comm_cons. apply run_exact; [|exact Hrest].
    simpl. rewrite (isalpha_word c Hc). exact Hcs. }
  rewrite Hrun, app_comm_cons, drop_app_length.
  destruct (lexer rest _); simpl; [|reflexivity..].
  rewrite rev_app_distr. reflexivity.
Qed.

(** X22. Numbers and names are read greedily: a run of digits up to a
    character that is not a digit is one literal, with the value the
    digits write in base ten; a letter or underscore followed by letters,
    digits and underscores, up to a character that is none of these, is
    one name. *)
Theorem longest_number_and_name prev rest :
  (forall ds,
     ds <> [] -> forallb is_digit ds = true -> starts_with is_digit rest = false ->
     tokenize_from prev (ds ++ rest)
     = us ← tokenize_from (Some (IntToken (int_of_digits ds))) rest;
       Ok (IntToken (int_of_digits ds) :: us))
  /\ (forall c cs,
        isalpha c || is_underscore c = true -> forallb word_char cs = true ->
        starts_with word_char rest = false ->
        tokenize_from prev (c :: cs ++ rest)
        = us ← tokenize_from (Some (VarToken (string_of_list_ascii (c :: cs)))) rest;
          Ok (VarToken (string_of_list_ascii (c :: cs)) :: us)).
Proof.
  split.
  - intros ds. apply tokenize_from_digits.
  - intros c cs. apply tokenize_from_name.
Qed.

Lemma longest_number_and_name_witness :
  tokenize (text "120+7") = Ok [IntToken 120; OpToken "+"; IntToken 7]
  /\ tokenize (text "_x1 y") = Ok [VarToken "_x1"; VarToken "y"].
Proof.
  split.
  - exact (proj1 (longest_number_and_name None (text "+7")) (text "120")
             ltac:(discriminate) eq_refl eq_refl).
  - exact (proj2 (longest_number_and_name None (text " y")) "_"%char (text "x1")
             eq_refl eq_refl eq_refl).
Defined.

(** X23. A line that is one name evaluates to the value the name is
    bound to, and raises the unbound-variable error naming it when it is
    not bound. *)
Theorem name_line c cs env (σ : store) :
  isalpha c || is_underscore c = true -> forallb word_char cs = true ->
  (env < length σ)%nat ->
  (interpret (c :: cs) env σ).1
  = match (σ !!! env) !! string_of_list_ascii (c :: cs) with
    | Some v => Ok v
    | None => Raise (RuntimeError "Unbound variable" (string_of_list_ascii (c :: cs)))
    end.
Proof.
  intros Hc Hcs Henv.
  assert (E : tokenize (c :: cs) = Ok [VarToken (string_of_list_ascii (c :: cs))]).
  { unfold tokenize. rewrite <- (app_nil_r cs) at 1.
    rewrite tokenize_from_name by (assumption || reflexivity). reflexivity. }
  unfold interpret. rewrite E.
  set (name := string_of_list_ascii (c :: cs)).
  change (tokens ← Ok [VarToken name]; parser tokens 0) with (Ok (Var name, 1%nat)).
  cbv iota beta. unfold copy.
  rewrite eval_is_denote by (rewrite length_app; simpl; lia).
  rewrite list_lookup_total_middle by reflexivity. reflexivity.
Qed.

Lemma name_line_witness :
  (interpret (text "total_2") 0 [{["total_2" := 8]}]).1 = Ok 8.
Proof.
  exact (name_line "t"%char (text "otal_2") 0%nat [{["total_2" := 8]}]
           eq_refl eq_refl (le_n 1)).
Defined.

(** ** Bindings that are not read *)

(** X24. When the body of an [Assign] does not read the assigned name,
    the [Assign] gives what the body gives without the binding, once the
    value expression has evaluated; an exception of the value expression
    is still the outcome. *)
Theorem unread_binding name val body env (σ : store) :
  (env < length σ)%nat -> ~ In name (names body) ->
  (eval (Assign name val body) env σ).1
  = match (eval val env σ).1 with
    | Ok _ => (eval body env σ).1
    | Raise e => Raise e
    | OutOfFuel => OutOfFuel
    end.
Proof.
  intros Henv Hname. rewrite !eval_is_denote by exact Henv. simpl.
  destruct (denote val (σ !!! env)) as [v|e|]; simpl; [|reflexivity..].
  apply denote_agree. intros x Hx. apply lookup_insert_ne.
  intros ->. exact (Hname Hx).
Qed.

Lemma unread_binding_witness :
  (eval (Assign "t" (Quotient (Int 1) (Int 0)) (Var "y")) 0%nat [{["y" := 3]}]).1
  = Raise ZeroDivisionError.
Proof.
  exact (unread_binding "t" (Quotient (Int 1) (Int 0)) (Var "y") 0%nat [{["y" := 3]}]
           (le_n 1) ltac:(intros [H|[]]; discriminate H)).
Defined.

(** ** What an evaluation does to the store *)

(** X25. Whatever the expression and the outcome, [eval] leaves the
    store it was given with new dicts after it: no dict is changed or
    removed, and the only writes go to copies made during the call. *)
Theorem eval_only_allocates exp env (σ : store) :
  exists ext, (eval exp env σ).2 = σ ++ ext.
Proof. apply eval_extends. Qed.
